(** * webapp-core: the abstract HTTP repository

    A shallow embedding of [src/repositories/http.repository.ts]: the
    in-flight request cache of [customRequest], the response classifier
    [handleError] with its [parseBackendError] hook, and the coercion of the
    response text by the declared model constructor.

    Strings are byte strings holding UTF-8; every pattern the code looks for
    is ASCII, so [startsWith] and the description pattern agree with their
    UTF-16 originals. *)

From Stdlib Require Import String Ascii NArith DecimalString.
From Stdlib Require Import Floats.SpecFloat.
From stdpp Require Import gmap strings list fin_maps.

Open Scope string_scope.
Open Scope list_scope.

(** ** JavaScript values *)

Inductive ErrorKind := Network | Backend.

(** Modelled from the spec: the classes [NetError] and [BackError] of
    [models/errors], which are not among the sources.  Both are the spec's
    Normalized Error: a kind, a message, an optional HTTP status and an
    optional raw body. *)
Record NormalizedError := {
  kind : ErrorKind;
  message : string;
  status : option N;
  body : option string
}.

#[warnings="-register-all"]
Inductive JsValue :=
| JUndefined
| JNull
| JBoolean (b : bool)
| JNumber (n : spec_float)
| JString (s : string)
| JSymbol (description : string)
| JFunction (name : string)
| JArray (elements : list JsValue)
| JObject (props : list (string * JsValue))
| JNormalized (e : NormalizedError)
| JNativeError (name msg : string).

(** [new NetError(message, status?)] and [new BackError(message)]. *)
Definition NetError (msg : string) (st : option N) : NormalizedError :=
  {| kind := Network; message := msg; status := st; body := None |}.

Definition BackError (msg : string) : NormalizedError :=
  {| kind := Backend; message := msg; status := None; body := None |}.

(** How a JavaScript computation ends. *)
Inductive Completion (A : Type) :=
| Normal (a : A)
| Throw (e : JsValue).
Arguments Normal {A} a.
Arguments Throw {A} e.

Definition typeof (v : JsValue) : string :=
  match v with
  | JUndefined => "undefined"
  | JBoolean _ => "boolean"
  | JNumber _ => "number"
  | JString _ => "string"
  | JSymbol _ => "symbol"
  | JFunction _ => "function"
  | JNull | JArray _ | JObject _ | JNormalized _ | JNativeError _ _ => "object"
  end.

Definition isArray (v : JsValue) : bool :=
  match v with JArray _ => true | _ => false end.

(** [Boolean(s)] on a string. *)
Definition Boolean (s : string) : bool :=
  match s with EmptyString => false | String _ _ => true end.

(** [s.startsWith(p)]. *)
Definition startsWith (p s : string) : bool := String.prefix p s.

(** Template-literal rendering of an unsigned integer. *)
Definition show (n : N) : string := NilZero.string_of_uint (N.to_uint n).

(** The built-ins whose results the repository passes through unread. *)
Class JsBuiltins := {
  Number : string -> spec_float;
  JSON_parse : string -> Completion JsValue;
  JSON_stringify : JsValue -> option string
}.

(** ** The fetch API *)

Inductive Methods := HEAD | GET | POST | DELETE | PUT.

Definition method_name (m : Methods) : string :=
  match m with
  | HEAD => "HEAD" | GET => "GET" | POST => "POST"
  | DELETE => "DELETE" | PUT => "PUT"
  end.

Module Response.
(** A [Response]: [text] is what reading the body stream settles with. *)
Record t := {
  status : N;
  statusText : string;
  text : Completion string
}.

(** [Response.ok]: the status is in the range 200-299. *)
Definition ok (r : t) : bool :=
  (200 <=? status r)%N && (status r <=? 299)%N.
End Response.

(** What [await fetch(...)] settles with. *)
Inductive FetchOutcome :=
| FetchRejected (e : JsValue)
| FetchResolved (response : Response.t).

(** ** The description pattern of [handleError]

    [/<b>description<\/b> <u>(.+?)<\/u>/gu], run with [exec] on a fresh
    regular expression, so the search starts at index 0. *)

Definition byte (n : nat) : string := String (ascii_of_nat n) EmptyString.

(** The line terminators that [.] refuses: LF, CR, U+2028 and U+2029 (the
    last two as their UTF-8 bytes). *)
Definition line_terminators : list string :=
  [byte 10; byte 13;
   byte 226 +:+ byte 128 +:+ byte 168;
   byte 226 +:+ byte 128 +:+ byte 169].

Definition atLineTerminator (s : string) : bool :=
  existsb (fun t => startsWith t s) line_terminators.

(** [(.+?)<\/u>] at the head of [s]: the shortest non-empty run of
    characters other than line terminators that [</u>] follows. *)
Fixpoint lazy_group (s : string) : option string :=
  match s with
  | EmptyString => None
  | String c s' =>
    if atLineTerminator s then None
    else if startsWith "</u>" s' then Some (String c EmptyString)
    else String c <$> lazy_group s'
  end.

Definition description_open : string := "<b>description</b> <u>".

Fixpoint drop_chars (n : nat) (s : string) : string :=
  match n, s with
  | S n', String _ s' => drop_chars n' s'
  | _, _ => s
  end.

Definition match_here (s : string) : option string :=
  if startsWith description_open s
  then lazy_group (drop_chars (String.length description_open) s)
  else None.

(** [exec(body)?.[1]]: capture group 1 of the leftmost match. *)
Fixpoint exec_description (s : string) : option string :=
  match match_here s with
  | Some g => Some g
  | None =>
    match s with
    | EmptyString => None
    | String _ s' => exec_description s'
    end
  end.

(** ** The repository: its overridable members and the classifier *)

Class HttpRepository := {
  apiRoot : string;
  setHeaders : list (string * string);
  parseBackendError : Response.t -> string -> NormalizedError
}.

(** [a || b] on strings. *)
Definition or_else (a b : string) : string :=
  if Boolean a then a else b.

Definition no_error_given : string := "Ошибка не указана".

(** [`${response.status} - ${response.statusText}`]. *)
Definition status_line (response : Response.t) : string :=
  show (Response.status response) +:+ " - " +:+ Response.statusText response.

Section Classifier.
Context {repo : HttpRepository}.

(** Lines 138-147: the error object chosen for a failed response. *)
Definition classify (response : Response.t) (body : string) : NormalizedError :=
  if (Response.status response =? 401)%N then
    NetError "Authorization exception" (Some 401%N)
  else if startsWith "<" body then
    let match_ := exec_description body in
    NetError (show (Response.status response) +:+ " - " +:+
              or_else (default (Response.statusText response) match_)
                      no_error_given) None
  else if startsWith "{" body then
    parseBackendError response body
  else
    NetError (status_line response) None.

(** [handleError]: hands an ok response back, and otherwise reads the
    body and throws the classified error with [status] and [body] set. *)
Definition handleError (response : Response.t) : Completion Response.t :=
  if Response.ok response then Normal response
  else
    match Response.text response with
    | Throw e => Throw e
    | Normal body =>
      let error := classify response body in
      Throw (JNormalized {| kind := kind error;
                            message := message error;
                            status := Some (Response.status response);
                            body := Some body |})
    end.
End Classifier.

(** The members as the abstract class defines them. *)
Definition base_setHeaders : list (string * string) :=
  [("content-type", "application/json"); ("Pragma", "no-cache")].

Definition base_parseBackendError (response : Response.t) (body : string)
  : NormalizedError :=
  let backError := BackError (status_line response) in
  {| kind := kind backError; message := message backError;
     status := status backError; body := Some body |}.

Definition base (root : string) : HttpRepository :=
  {| apiRoot := root;
     setHeaders := base_setHeaders;
     parseBackendError := base_parseBackendError |}.

(** ** The state of a repository instance and its surroundings *)

(** The functions kept in the request cache.  [customRequest] itself only
    stores the two settling functions of a promise it creates; the cache is
    a protected member typed [Function], so any other function may sit there
    too: one that, apart from being called, touches nothing of the
    repository and may throw. *)
Inductive Fn :=
| PromiseResolve (p : nat)
| PromiseReject (p : nat)
| Foreign (id : nat) (raises : JsValue -> option JsValue).

Inductive PromiseState :=
| Pending
| Fulfilled (v : JsValue)
| Rejected (e : JsValue).

(** The arguments of one [fetch(url, init)]. *)
Record FetchCall := {
  fetch_url : string;
  fetch_method : Methods;
  fetch_body : option string;
  fetch_headers : list (string * string);
  fetch_credentials : string
}.

Record State := {
  requestCache : gmap string (list (Fn * Fn));
  promises : list PromiseState;   (* those made by [new Promise], oldest first *)
  network : list FetchCall;       (* the calls of [fetch], oldest first *)
  console : list JsValue;         (* what [console.error] was given *)
  calls : list (Fn * JsValue)     (* every call of a cached function *)
}.

Definition empty_state : State :=
  {| requestCache := ∅; promises := []; network := [];
     console := []; calls := [] |}.

Definition with_requestCache (f : gmap string (list (Fn * Fn)) ->
                                  gmap string (list (Fn * Fn))) (st : State) :=
  {| requestCache := f (requestCache st); promises := promises st;
     network := network st; console := console st; calls := calls st |}.

Definition with_promises (f : list PromiseState -> list PromiseState)
                         (st : State) :=
  {| requestCache := requestCache st; promises := f (promises st);
     network := network st; console := console st; calls := calls st |}.

Definition with_network (f : list FetchCall -> list FetchCall) (st : State) :=
  {| requestCache := requestCache st; promises := promises st;
     network := f (network st); console := console st; calls := calls st |}.

Definition with_console (f : list JsValue -> list JsValue) (st : State) :=
  {| requestCache := requestCache st; promises := promises st;
     network := network st; console := f (console st); calls := calls st |}.

Definition with_calls (f : list (Fn * JsValue) -> list (Fn * JsValue))
                      (st : State) :=
  {| requestCache := requestCache st; promises := promises st;
     network := network st; console := console st; calls := f (calls st) |}.

(** The tuple [[res, rej]] that line 29 caches for promise [p]. *)
Definition waiter (p : nat) : Fn * Fn := (PromiseResolve p, PromiseReject p).

(** Statements that read and write the state and may throw. *)
Definition M (A : Type) : Type := State -> State * Completion A.

Definition ret {A} (a : A) : M A := fun st => (st, Normal a).

Definition throw {A} (e : JsValue) : M A := fun st => (st, Throw e).

Definition bind {A B} (m : M A) (k : A -> M B) : M B := fun st =>
  match m st with
  | (st', Normal a) => k a st'
  | (st', Throw e) => (st', Throw e)
  end.

(** [try { body } catch (e) { handler }]. *)
Definition try_catch {A} (body : M A) (handler : JsValue -> M A) : M A :=
  fun st =>
    match body st with
    | (st', Throw e) => handler e st'
    | r => r
    end.

Definition lift {A} (c : Completion A) : M A := fun st => (st, c).

Definition gets {A} (f : State -> A) : M A := fun st => (st, Normal (f st)).

Definition modify (f : State -> State) : M unit := fun st => (f st, Normal tt).

Declare Scope js_scope.
Delimit Scope js_scope with js.
Notation "x <- m ;; k" := (bind m (fun x => k))
  (at level 100, m at next level, right associativity) : js_scope.
Notation "m ;; k" := (bind m (fun _ => k))
  (at level 100, right associativity) : js_scope.
Open Scope js_scope.

(** [array.forEach(f)]: a throw of [f] leaves the loop. *)
Fixpoint forEach {A} (f : A -> M unit) (l : list A) : M unit :=
  match l with
  | [] => ret tt
  | x :: l' => f x ;; forEach f l'
  end.

(** Settling a promise: only a pending one changes. *)
Definition settle (p : nat) (s : PromiseState) : M unit := fun st =>
  match promises st !! p with
  | Some Pending => (with_promises (fun ps => <[p := s]> ps) st, Normal tt)
  | _ => (st, Normal tt)
  end.

(** Calling a cached function with one argument. *)
Definition call (f : Fn) (arg : JsValue) : M unit :=
  modify (with_calls (fun cs => cs ++ [(f, arg)])) ;;
  match f with
  | PromiseResolve p => settle p (Fulfilled arg)
  | PromiseReject p => settle p (Rejected arg)
  | Foreign _ raises =>
    match raises arg with
    | Some e => throw e
    | None => ret tt
    end
  end.

Definition console_error (e : JsValue) : M unit :=
  modify (with_console (fun out => out ++ [e])).

(** ** [customRequest] *)

Definition isCacheable (type : Methods) : bool :=
  match type with GET | HEAD => true | _ => false end.

Definition cacheKey (type : Methods) (url : string) : string :=
  method_name type +:+ " " +:+ url.

(** The guarded loop that the code has three times (lines 51-62, 81-91 and
    96-106): every tuple of the slot has its component [pick] called with
    [arg] inside a [try] whose [catch] prints, then the slot is deleted. *)
Definition settleAll (pick : Fn * Fn -> Fn) (arg : JsValue)
    (isCacheableRequest : bool) (key : string) : M unit :=
  has <- gets (fun st => bool_decide (is_Some (requestCache st !! key))) ;;
  if isCacheableRequest && has then
    slot <- gets (fun st => requestCache st !! key) ;;
    forEach (fun tuple => try_catch (call (pick tuple) arg) console_error)
            (default [] slot) ;;
    modify (with_requestCache (delete key))
  else ret tt.

Definition resolveAll := settleAll fst.
Definition rejectAll := settleAll snd.

(** One round of the loop body: the call, with what it throws printed. *)
Definition notify (f : Fn) (arg : JsValue) (st : State) : State :=
  fst (try_catch (call f arg) console_error st).

Definition notify_all (pick : Fn * Fn -> Fn) (arg : JsValue)
    (slot : list (Fn * Fn)) (st : State) : State :=
  fold_left (fun st tuple => notify (pick tuple) arg st) slot st.

(** What a call of [f] throws, and which promise it settles. *)
Definition thrown_by (f : Fn) (arg : JsValue) : option JsValue :=
  match f with Foreign _ raises => raises arg | _ => None end.

Definition settled_by (f : Fn) (arg : JsValue) : option (nat * PromiseState) :=
  match f with
  | PromiseResolve p => Some (p, Fulfilled arg)
  | PromiseReject p => Some (p, Rejected arg)
  | Foreign _ _ => None
  end.

(** Where a call of [customRequest] is suspended after its first run. *)
Inductive Suspension :=
| AwaitSlot (p : nat)   (* line 28: on the promise whose functions it cached *)
| AwaitFetch.           (* line 39: on the network *)

(** Lines 66-93 without the loops: the value for the declared model, the
    exception that [JSON.parse] let escape, or the wrong-type error. *)
Inductive Coercion :=
| Data (data : JsValue)
| ParseThrew (e : JsValue)
| WrongType (error : JsValue).

Definition parsed (c : Completion JsValue) : Coercion :=
  match c with Normal data => Data data | Throw e => ParseThrew e end.

Section Request.
Context {js : JsBuiltins} {repo : HttpRepository}.

(** Lines 22-47: up to the first [await]. *)
Definition customRequest_enter (type : Methods) (url : string)
    (body : option JsValue) (modelConstructor : JsValue)
    (st : State) : State * Suspension :=
  let isCacheableRequest := isCacheable type in
  let key := cacheKey type url in
  if isCacheableRequest && bool_decide (is_Some (requestCache st !! key))
  then
    let p := length (promises st) in
    let st := with_promises (fun ps => ps ++ [Pending]) st in
    (with_requestCache
       (alter (fun slot => slot ++ [(PromiseResolve p, PromiseReject p)]) key)
       st,
     AwaitSlot p)
  else
    let st := if isCacheableRequest
              then with_requestCache (insert key []) st
              else st in
    let headers := setHeaders in
    (with_network
       (fun log => log ++ [{| fetch_url := url;
                              fetch_method := type;
                              fetch_body := body ≫= JSON_stringify;
                              fetch_headers := headers;
                              fetch_credentials := "include" |}])
       st,
     AwaitFetch).

(** Lines 39-49 once [fetch] has settled: the text of an ok response, or
    what the [try] block throws. *)
Definition try_block (reply : FetchOutcome) : Completion string :=
  match reply with
  | FetchRejected e => Throw e
  | FetchResolved response =>
    match handleError response with
    | Throw e => Throw e
    | Normal response => Response.text response
    end
  end.

Definition coerce (modelConstructor : JsValue) (primitive : string)
  : Coercion :=
  if isArray modelConstructor && startsWith "[" primitive then
    parsed (JSON_parse primitive)
  else if bool_decide (typeof modelConstructor = "object")
          && startsWith "{" primitive then
    parsed (JSON_parse primitive)
  else if bool_decide (typeof modelConstructor = "string") then
    Data (JString primitive)
  else if bool_decide (typeof modelConstructor = "number") then
    Data (JNumber (Number primitive))
  else if bool_decide (typeof modelConstructor = "boolean") then
    Data (JBoolean (Boolean primitive))
  else if bool_decide (typeof modelConstructor = "undefined") then
    Data JUndefined
  else
    WrongType (JNormalized (NetError
      ("Wrong returned type. Must by " +:+ typeof modelConstructor +:+
       " but return " +:+ typeof (JString primitive)) None)).

(** Lines 48-107: from the settled [fetch] to the end of the call.  The
    awaits in between ([handleError], [text]) touch no shared state. *)
Definition customRequest_resume (type : Methods) (url : string)
    (body : option JsValue) (modelConstructor : JsValue)
    (reply : FetchOutcome) : M JsValue :=
  let isCacheableRequest := isCacheable type in
  let key := cacheKey type url in
  primitive <- try_catch (lift (try_block reply))
                 (fun e => rejectAll e isCacheableRequest key ;; throw e) ;;
  match coerce modelConstructor primitive with
  | ParseThrew e => throw e
  | WrongType error =>
    rejectAll error isCacheableRequest key ;; throw error
  | Data data =>
    resolveAll data isCacheableRequest key ;; ret data
  end.
End Request.

(** ** Calls in flight on the one event loop

    [customRequest] runs in two pieces: [customRequest_enter] when it is
    called and, for the calls that went to the network,
    [customRequest_resume] when the reply is in.  A call suspended on a slot
    has no second piece of its own: it ends with whatever its promise is
    settled with. *)

Record Request := {
  req_type : Methods;
  req_url : string;
  req_body : option JsValue;
  req_model : JsValue
}.

Inductive Task :=
| Fetching (r : Request)
| Joined (r : Request) (p : nat)
| Ended (r : Request) (c : Completion JsValue).

Inductive Event :=
| Invoke (r : Request)
| Reply (t : nat) (reply : FetchOutcome).

Record World := {
  heap : State;
  tasks : list Task   (* by order of invocation *)
}.

Definition boot : World := {| heap := empty_state; tasks := [] |}.

Section Loop.
Context {js : JsBuiltins} {repo : HttpRepository}.

Definition step (ev : Event) (w : World) : option World :=
  match ev with
  | Invoke r =>
    let '(st, s) := customRequest_enter (req_type r) (req_url r)
                      (req_body r) (req_model r) (heap w) in
    Some {| heap := st;
            tasks := tasks w ++ [match s with
                                 | AwaitFetch => Fetching r
                                 | AwaitSlot p => Joined r p
                                 end] |}
  | Reply t reply =>
    match tasks w !! t with
    | Some (Fetching r) =>
      let '(st, c) := customRequest_resume (req_type r) (req_url r)
                        (req_body r) (req_model r) reply (heap w) in
      Some {| heap := st; tasks := <[t := Ended r c]> (tasks w) |}
    | _ => None
    end
  end.

Fixpoint run (evs : list Event) (w : World) : option World :=
  match evs with
  | [] => Some w
  | ev :: evs' =>
    match step ev w with
    | Some w' => run evs' w'
    | None => None
    end
  end.

Inductive reachable : World -> Prop :=
| reachable_boot : reachable boot
| reachable_step w ev w' :
    reachable w -> step ev w = Some w' -> reachable w'.

(** What the caller of task [t] has got back so far. *)
Definition received (w : World) (t : nat) : option (Completion JsValue) :=
  match tasks w !! t with
  | Some (Ended _ c) => Some c
  | Some (Joined _ p) =>
    match promises (heap w) !! p with
    | Some (Fulfilled v) => Some (Normal v)
    | Some (Rejected e) => Some (Throw e)
    | _ => None
    end
  | _ => None
  end.
End Loop.

Definition key_of (r : Request) : string :=
  cacheKey (req_type r) (req_url r).

Definition cacheable (r : Request) : bool := isCacheable (req_type r).

(** What holds of the cache between any two pieces of code. *)
Record consistent (w : World) : Prop := {
  owner_has_slot : forall t r,
    tasks w !! t = Some (Fetching r) -> cacheable r = true ->
    is_Some (requestCache (heap w) !! key_of r);
  owner_unique : forall t1 t2 r1 r2,
    tasks w !! t1 = Some (Fetching r1) ->
    tasks w !! t2 = Some (Fetching r2) ->
    cacheable r1 = true -> key_of r1 = key_of r2 -> t1 = t2;
  slots_hold_waiters : forall k slot tuple,
    requestCache (heap w) !! k = Some slot -> tuple ∈ slot ->
    exists q, tuple = waiter q;
  joined_allocated : forall t r p,
    tasks w !! t = Some (Joined r p) -> p < length (promises (heap w));
  joined_in_slot : forall t r p,
    tasks w !! t = Some (Joined r p) ->
    promises (heap w) !! p = Some Pending ->
    exists slot,
      requestCache (heap w) !! key_of r = Some slot /\ waiter p ∈ slot
}.

(** Task [t] waits on promise [p] in a slot of key [k] that no call in
    flight owns. *)
Record stranded (k : string) (t p : nat) (w : World) : Prop := {
  stranded_task : exists r, tasks w !! t = Some (Joined r p);
  stranded_pending : promises (heap w) !! p = Some Pending;
  stranded_slot : is_Some (requestCache (heap w) !! k);
  stranded_no_owner : forall t0 r0,
    tasks w !! t0 = Some (Fetching r0) -> cacheable r0 = true ->
    key_of r0 <> k;
  stranded_only_there : forall k' slot,
    requestCache (heap w) !! k' = Some slot -> waiter p ∈ slot -> k' = k
}.

(** Built-ins to run the model with: a [JSON.parse] that knows the empty
    array and the empty object and takes any other text for malformed. *)
Definition sample_parse (s : string) : Completion JsValue :=
  if bool_decide (s = "[]") then Normal (JArray [])
  else if bool_decide (s = "{}") then Normal (JObject [])
  else Throw (JNativeError "SyntaxError" s).

Definition sample_builtins : JsBuiltins :=
  {| Number := fun _ => S754_nan;
     JSON_parse := sample_parse;
     JSON_stringify := fun _ => None |}.

(** The ways the spec lets a request settle, with what the caller gets. *)
Inductive Settlement :=
| Success (data : JsValue)
| HttpError (e : JsValue)
| TransportFailure (e : JsValue)
| TypeMismatch (e : JsValue).

Definition completion_of (s : Settlement) : Completion JsValue :=
  match s with
  | Success data => Normal data
  | HttpError e | TransportFailure e | TypeMismatch e => Throw e
  end.

(** The component of the tuples and the argument its loop calls them with,
    and the state it leaves the promises in. *)
Definition pick_of (s : Settlement) : Fn * Fn -> Fn :=
  match s with Success _ => fst | _ => snd end.

Definition arg_of (s : Settlement) : JsValue :=
  match s with
  | Success data => data
  | HttpError e | TransportFailure e | TypeMismatch e => e
  end.

Definition settled_as (s : Settlement) : PromiseState :=
  match s with
  | Success data => Fulfilled data
  | HttpError e | TransportFailure e | TypeMismatch e => Rejected e
  end.

Section Settlements.
Context {js : JsBuiltins} {repo : HttpRepository}.

Inductive settles (modelConstructor : JsValue)
  : FetchOutcome -> Settlement -> Prop :=
| settles_success response primitive data :
    Response.ok response = true ->
    Response.text response = Normal primitive ->
    coerce modelConstructor primitive = Data data ->
    settles modelConstructor (FetchResolved response) (Success data)
| settles_http_error response text e :
    Response.ok response = false ->
    Response.text response = Normal text ->
    handleError response = Throw e ->
    settles modelConstructor (FetchResolved response) (HttpError e)
| settles_fetch_failure e :
    settles modelConstructor (FetchRejected e) (TransportFailure e)
| settles_body_failure response e :
    Response.text response = Throw e ->
    settles modelConstructor (FetchResolved response) (TransportFailure e)
| settles_type_mismatch response primitive error :
    Response.ok response = true ->
    Response.text response = Normal primitive ->
    coerce modelConstructor primitive = WrongType error ->
    settles modelConstructor (FetchResolved response) (TypeMismatch error).
End Settlements.

(** Two calls in flight for one key under the sample built-ins: the first
    declares a string, the second sends a body and declares a boolean. *)
Definition users_as_text : Request :=
  {| req_type := GET; req_url := "/users"; req_body := None;
     req_model := JString EmptyString |}.

Definition users_as_flag : Request :=
  {| req_type := GET; req_url := "/users";
     req_body := Some (JObject [("page", JString "2")]);
     req_model := JBoolean false |}.

Definition two_in_flight : World :=
  default boot
    (run (js := sample_builtins) (repo := base "/api")
       [Invoke users_as_text; Invoke users_as_flag] boot).

(** [s.endsWith(suffix)]. *)
Definition endsWith (suffix s : string) : bool :=
  (String.length suffix <=? String.length s)%nat &&
  String.eqb (drop_chars (String.length s - String.length suffix) s) suffix.

Definition quoted (s : string) : string := byte 34 +:+ s +:+ byte 34.

(** The page of the servlet container: the description markup first. *)
Definition not_found_page : string := "<b>description</b> <u>Not Found</u>".

(** The JSON text of an object with the one member msg, valued boom. *)
Definition boom_payload : string :=
  "{" +:+ quoted "msg" +:+ ":" +:+ quoted "boom" +:+ "}".

(** ** The typed wrappers and the network log *)



(** [array.map(f)] with an [f] that may throw: the first throw leaves. *)
Fixpoint map_throwing (f : JsValue -> Completion JsValue)
    (l : list JsValue) : Completion (list JsValue) :=
  match l with
  | [] => Normal []
  | x :: l' =>
    match f x with
    | Throw e => Throw e
    | Normal y =>
      match map_throwing f l' with
      | Throw e => Throw e
      | Normal ys => Normal (y :: ys)
      end
    end
  end.

Section Typed.
(** [new ModelConstructor().fromJSON(model)] of ts-serializable, and the
    TypeError of the engine for [models.map] on a value that is no array. *)
Variable fromJSON : JsValue -> Completion JsValue.
Variable map_is_not_a_function : JsValue -> JsValue.



(** [customRequestAsArrayT], lines 126-127, with [[]] as model. *)
Definition customRequestAsArrayT_model : JsValue := JArray [].

Definition customRequestAsArrayT_return (c : Completion JsValue)
  : Completion JsValue :=
  match c with
  | Normal (JArray models) =>
    match map_throwing fromJSON models with
    | Normal instances => Normal (JArray instances)
    | Throw e => Throw e
    end
  | Normal models => Throw (map_is_not_a_function models)
  | Throw e => Throw e
  end.
End Typed.

(** The two calls of [two_in_flight] after the reply [[]] to the first,
    and after one more call of the first kind. *)
Definition two_answered : World :=
  default boot
    (run (js := sample_builtins) (repo := base "/api")
       [Reply 0 (FetchResolved {| Response.status := 200;
                                  Response.statusText := "OK";
                                  Response.text := Normal "[]" |})]
       two_in_flight).

Definition two_answered_one_more : World :=
  default boot
    (run (js := sample_builtins) (repo := base "/api")
       [Invoke users_as_text] two_answered).

(** Every tuple in the cache belongs to one waiting call, whose promise is
    still pending, and stands there once. *)
Record hygienic (w : World) : Prop := {
  cached_is_joined : forall k slot p,
    requestCache (heap w) !! k = Some slot -> waiter p ∈ slot ->
    exists t r, tasks w !! t = Some (Joined r p) /\ key_of r = k;
  joined_distinct : forall t1 t2 r1 r2 p,
    tasks w !! t1 = Some (Joined r1 p) ->
    tasks w !! t2 = Some (Joined r2 p) -> t1 = t2;
  cached_is_pending : forall k slot p,
    requestCache (heap w) !! k = Some slot -> waiter p ∈ slot ->
    promises (heap w) !! p = Some Pending;
  slots_nodup : forall k slot,
    requestCache (heap w) !! k = Some slot -> NoDup slot
}.

(** A text without line terminators, as [.] wants it. *)
Fixpoint one_line (g : string) : bool :=
  match g with
  | EmptyString => true
  | String _ g' => negb (atLineTerminator g) && one_line g'
  end.

(** ** The logger service ([services/logger.service.ts]) *)

(** Modelled from the spec: the enum [LogLevels] of [models/enums], which is
    not among the sources; the spec gives it a numeric ranking, and the code
    compares two levels with [<=]. *)
Class LogLevels := {
  ERROR : N;
  WARN : N;
  INFO : N
}.

Module ClientError.
(** Modelled from the spec: the class [ClientError] of [models/view-models],
    which is not among the sources, by the four fields that [processError]
    assigns.  [errorBody] is [None] as long as it is not assigned. *)
Record t := {
  message : string;
  error : option string;
  errorBody : option (option string);
  browser : option string
}.
End ClientError.

(** The [Error] objects handed to the logger: the instances of [NetError]
    and [BackError], and any other error by its name and message. *)
Inductive LoggedError :=
| OfClass (e : NormalizedError)
| OtherError (name msg : string).

Inductive ConsoleCall :=
| ConsoleLog (m : string)
| ConsoleWarn (m : string)
| ConsoleError (m : string) (e : option LoggedError).

(** What the logger acts on: the console, [window.location.href], and the
    client errors handed to [sendClientError], the hook that a subclass
    overrides (the base one drops them). *)
Record Page := {
  printed : list ConsoleCall;
  location_href : string;
  sent : list ClientError.t
}.

Record LoggerService := {
  logLevel : N;
  loginUrl : option string
}.

(** What the host gives: the enumerable properties of [navigator] in the
    order of [for ... in], the [name] of the instances of the two error
    classes, [JSON.stringify(error, Object.getOwnPropertyNames(error))] on
    an error object, and the TypeError that
    [Object.getOwnPropertyNames(undefined)] throws. *)
Class Host := {
  navigator : list (string * JsValue);
  class_name : ErrorKind -> string;
  stringify_error : LoggedError -> option string;
  no_properties_of_undefined : JsValue
}.

(** [object[key] = value] and [delete object[key]] on the properties. *)
Fixpoint set_property (key : string) (value : JsValue)
    (props : list (string * JsValue)) : list (string * JsValue) :=
  match props with
  | [] => [(key, value)]
  | (k, v) :: props' =>
    if bool_decide (k = key) then (k, value) :: props'
    else (k, v) :: set_property key value props'
  end.

Definition delete_property (key : string) (props : list (string * JsValue))
  : list (string * JsValue) :=
  filter (fun kv => kv.1 <> key) props.

Definition error_name {host : Host} (error : LoggedError) : string :=
  match error with
  | OfClass e => class_name (kind e)
  | OtherError name _ => name
  end.

Definition error_message (error : LoggedError) : string :=
  match error with
  | OfClass e => message e
  | OtherError _ msg => msg
  end.

(** [error instanceof NetError] with [error.status === 401]. *)
Definition unauthorized (error : LoggedError) : bool :=
  match error with
  | OfClass e =>
    match kind e with
    | Network => bool_decide (status e = Some 401%N)
    | Backend => false
    end
  | OtherError _ _ => false
  end.

Section Logger.
Context {levels : LogLevels} {js : JsBuiltins} {host : Host}.

(** Lines 55-61: the copy of [navigator] without the two plugin lists. *)
Definition varNavigator : list (string * JsValue) :=
  delete_property "mimeTypes"
    (delete_property "plugins"
       (fold_left (fun props kv => set_property kv.1 kv.2 props)
                  navigator [])).

Definition processError (service : LoggerService) (message : string)
    (error : option LoggedError) (level : N) (page : Page)
  : Page * Completion unit :=
  let redirect :=
    match error, loginUrl service with
    | Some e, Some (String c url) =>
      if unauthorized e then Some (String c url) else None
    | _, _ => None
    end in
  match redirect with
  | Some url =>
    ({| printed := printed page; location_href := url; sent := sent page |},
     Normal tt)
  | None =>
    let clientMessage :=
      match error with
      | Some e =>
        "Ошибка в " +:+ message +:+ ": " +:+ error_name e +:+ " " +:+
        error_message e
      | None => "Ошибка в " +:+ message
      end in
    match error with
    | None => (page, Throw no_properties_of_undefined)
    | Some e =>
      let clientError :=
        {| ClientError.message := clientMessage;
           ClientError.error := stringify_error e;
           ClientError.errorBody :=
             match e with
             | OfClass n => Some (body n)
             | OtherError _ _ => None
             end;
           ClientError.browser := JSON_stringify (JObject varNavigator) |} in
      ({| printed := printed page; location_href := location_href page;
          sent := sent page ++ [clientError] |},
       Normal tt)
    end
  end.

Definition print (line : ConsoleCall) (page : Page) : Page :=
  {| printed := printed page ++ [line]; location_href := location_href page;
     sent := sent page |}.

(** [log], [warning] and [error]; [None] for a level left out. *)
Definition log (service : LoggerService) (message : string)
    (level : option N) (page : Page) : Page * Completion unit :=
  let level := default INFO level in
  if (level <=? logLevel service)%N
  then processError service message None level
         (print (ConsoleLog message) page)
  else (page, Normal tt).

Definition warning (service : LoggerService) (message : string)
    (level : option N) (page : Page) : Page * Completion unit :=
  let level := default WARN level in
  if (level <=? logLevel service)%N
  then processError service message None level
         (print (ConsoleWarn message) page)
  else (page, Normal tt).

Definition error (service : LoggerService) (message : string)
    (err : option LoggedError) (level : option N) (page : Page)
  : Page * Completion unit :=
  let level := default ERROR level in
  if (level <=? logLevel service)%N
  then processError service message err level
         (print (ConsoleError message err) page)
  else (page, Normal tt).

(** The service as constructed: level [ERROR], no login url. *)
Definition new_LoggerService : LoggerService :=
  {| logLevel := ERROR; loginUrl := None |}.
End Logger.

(** A ranking and a host to run the logger with. *)
Definition sample_levels : LogLevels := {| ERROR := 0; WARN := 1; INFO := 2 |}.

Definition sample_host : Host :=
  {| navigator := [("userAgent", JString "sample");
                   ("plugins", JArray []);
                   ("language", JString "ru");
                   ("mimeTypes", JArray [])];
     class_name := fun k => match k with
                            | Network => "NetError"
                            | Backend => "BackError"
                            end;
     stringify_error := fun e => Some (error_message e);
     no_properties_of_undefined :=
       JNativeError "TypeError" "Cannot convert undefined or null to object" |}.

Definition blank_page : Page :=
  {| printed := []; location_href := "/app"; sent := [] |}.

(** * The response classifier *)

Section ClassifierFacts.
Context {repo : HttpRepository}.

Lemma handleError_failed response text :
  Response.ok response = false ->
  Response.text response = Normal text ->
  handleError response =
    Throw (JNormalized {| kind := kind (classify response text);
                          message := message (classify response text);
                          status := Some (Response.status response);
                          body := Some text |}).
Proof. intros Hok Htext. unfold handleError. by rewrite Hok, Htext. Qed.

Lemma not_ok_401 response :
  Response.status response = 401%N -> Response.ok response = false.
Proof. intros H. unfold Response.ok. by rewrite H. Qed.
End ClassifierFacts.

(** C5. A response with status 401 is classified, whatever its body text,
    as a network error with the message "Authorization exception", status
    401 and the raw body text as body. *)
Theorem unauthorized_401 (repo : HttpRepository) (response : Response.t)
    (text : string) :
  Response.status response = 401%N ->
  Response.text response = Normal text ->
  handleError response =
    Throw (JNormalized {| kind := Network;
                          message := "Authorization exception";
                          status := Some 401%N;
                          body := Some text |}).
Proof.
  intros Hstatus Htext.
  rewrite (handleError_failed response text (not_ok_401 _ Hstatus) Htext).
  unfold classify. by rewrite Hstatus.
Qed.

Lemma unauthorized_401_witness :
  let response := {| Response.status := 401;
                     Response.statusText := "Unauthorized";
                     Response.text := Normal "<html>sign in</html>" |} in
  (Response.status response = 401%N /\
   Response.text response = Normal "<html>sign in</html>") /\
  handleError (repo := base "/api") response =
    Throw (JNormalized {| kind := Network;
                          message := "Authorization exception";
                          status := Some 401%N;
                          body := Some "<html>sign in</html>" |}).
Proof.
  split; [split; reflexivity |].
  apply (unauthorized_401 (base "/api")); reflexivity.
Defined.

(** ** The description pattern *)

Lemma startsWith_app (p s : string) :
  startsWith p s = true -> exists rest, s = p +:+ rest.
Proof.
  unfold startsWith. revert s.
  induction p as [|c p IH]; intros s H.
  - by exists s.
  - destruct s as [|d s]; [discriminate|]. cbn in H.
    destruct (ascii_dec c d) as [->|]; [|discriminate].
    destruct (IH _ H) as [rest ->]. by exists rest.
Qed.

Lemma drop_chars_app (front s : string) :
  drop_chars (String.length front) (front +:+ s) = s.
Proof. induction front as [|c front IH]; [done | exact IH]. Qed.

Lemma length_append (a b : string) :
  String.length (a +:+ b) = String.length a + String.length b.
Proof.
  induction a as [|c a IH]; [done|].
  change (S (String.length (a +:+ b)) = S (String.length a + String.length b)).
  by rewrite IH.
Qed.

Lemma append_assoc (a b c : string) : (a +:+ b) +:+ c = a +:+ (b +:+ c).
Proof.
  induction a as [|x a IH]; [done|].
  change (String x ((a +:+ b) +:+ c) = String x (a +:+ (b +:+ c))).
  by rewrite IH.
Qed.

Lemma endsWith_app (front suffix : string) :
  endsWith suffix (front +:+ suffix) = true.
Proof.
  unfold endsWith. rewrite length_append.
  replace (String.length front + String.length suffix - String.length suffix)
    with (String.length front) by lia.
  rewrite drop_chars_app, String.eqb_refl, andb_true_r.
  apply Nat.leb_le. lia.
Qed.

Lemma exec_not_found_page (rest : string) :
  exec_description (not_found_page +:+ rest) = Some "Not Found".
Proof. destruct rest; reflexivity. Qed.

(** C6, as the code has it.  A failed response with a status other than
    401 whose body text starts with the description markup for "Not Found"
    is classified as a network error whose message is the status followed
    by " - Not Found", so it ends in "Not Found". *)
Theorem description_not_found (repo : HttpRepository)
    (response : Response.t) (text : string) :
  Response.ok response = false ->
  Response.status response <> 401%N ->
  Response.text response = Normal text ->
  startsWith not_found_page text = true ->
  exists e,
    handleError response = Throw (JNormalized e) /\
    kind e = Network /\
    message e = show (Response.status response) +:+ " - Not Found" /\
    endsWith "Not Found" (message e) = true.
Proof.
  intros Hok Hstatus Htext Hpage.
  destruct (startsWith_app _ _ Hpage) as [rest ->].
  rewrite (handleError_failed response _ Hok Htext).
  eexists. split; [reflexivity|].
  unfold classify.
  apply N.eqb_neq in Hstatus. rewrite Hstatus.
  replace (startsWith "<" (not_found_page +:+ rest)) with true by done.
  rewrite exec_not_found_page. cbn [kind message NetError default].
  repeat split.
  change (" - " +:+ or_else "Not Found" no_error_given)
    with (" - " +:+ "Not Found").
  rewrite <- append_assoc. apply endsWith_app.
Qed.

Lemma description_not_found_witness :
  let response := {| Response.status := 404;
                     Response.statusText := EmptyString;
                     Response.text := Normal not_found_page |} in
  (Response.ok response = false /\
   Response.status response <> 401%N /\
   Response.text response = Normal not_found_page /\
   startsWith not_found_page not_found_page = true) /\
  exists e,
    handleError (repo := base "/api") response = Throw (JNormalized e) /\
    kind e = Network /\
    message e = show (Response.status response) +:+ " - Not Found" /\
    endsWith "Not Found" (message e) = true.
Proof.
  split; [by repeat split |].
  apply (description_not_found (base "/api") _ not_found_page); done.
Defined.

(** C6, as stated, fails at status 401: the first rule of the classifier
    wins and the message is "Authorization exception". *)
Lemma description_not_found_401 :
  let response := {| Response.status := 401;
                     Response.statusText := "Unauthorized";
                     Response.text := Normal not_found_page |} in
  Response.ok response = false /\
  startsWith not_found_page not_found_page = true /\
  exists e,
    handleError (repo := base "/api") response = Throw (JNormalized e) /\
    message e = "Authorization exception" /\
    endsWith "Not Found" (message e) = false.
Proof. repeat split. eexists. repeat split. Qed.

(** The third rule with the base [parseBackendError]: the status line as
    message, whatever the payload holds. *)
Lemma backend_error_base (root : string) (response : Response.t)
    (text : string) :
  Response.ok response = false ->
  Response.status response <> 401%N ->
  Response.text response = Normal text ->
  startsWith "{" text = true ->
  handleError (repo := base root) response =
    Throw (JNormalized {| kind := Backend;
                          message := status_line response;
                          status := Some (Response.status response);
                          body := Some text |}).
Proof.
  intros Hok Hstatus Htext Hbrace.
  destruct (startsWith_app _ _ Hbrace) as [rest ->].
  rewrite (handleError_failed response _ Hok Htext). unfold classify.
  apply N.eqb_neq in Hstatus. rewrite Hstatus.
  by destruct rest.
Qed.

(** C7. A response with status 500 and the body text [{"msg":"boom"}] is
    classified by the base [parseBackendError] as a backend error whose
    message is "500 - " followed by the status text, nothing of the payload,
    and whose body is that raw text. *)
Theorem backend_error_500 (root statusText : string) :
  handleError (repo := base root)
      {| Response.status := 500;
         Response.statusText := statusText;
         Response.text := Normal boom_payload |} =
    Throw (JNormalized {| kind := Backend;
                          message := "500 - " +:+ statusText;
                          status := Some 500%N;
                          body := Some boom_payload |}).
Proof. by apply backend_error_base. Qed.

(** * Settling a slot *)

(** Run one round of the loop on every kind of function. *)
Ltac round f arg st :=
  unfold notify, try_catch, call, bind, modify, console_error, settle;
  destruct f as [?p|?p|?id ?raises]; cbn;
  [ destruct (promises st !! p) as [[| |]|]
  | destruct (promises st !! p) as [[| |]|]
  | destruct (raises arg) ]; cbn.

Lemma loop_body_normal f arg st :
  try_catch (call f arg) console_error st = (notify f arg st, Normal tt).
Proof. round f arg st; reflexivity. Qed.

Lemma forEach_loop pick arg slot st :
  forEach (fun tuple => try_catch (call (pick tuple) arg) console_error)
          slot st
  = (notify_all pick arg slot st, Normal tt).
Proof.
  revert st. induction slot as [|t slot IH]; intros st; [done|].
  cbn. unfold bind at 1. rewrite loop_body_normal. apply IH.
Qed.

Lemma settleAll_uncacheable pick arg key st :
  settleAll pick arg false key st = (st, Normal tt).
Proof. reflexivity. Qed.

Lemma settleAll_absent pick arg cacheable key st :
  requestCache st !! key = None ->
  settleAll pick arg cacheable key st = (st, Normal tt).
Proof.
  intros H. unfold settleAll, bind, gets. rewrite H.
  rewrite bool_decide_eq_false_2 by (by intros [? ?]).
  by rewrite andb_false_r.
Qed.

Lemma settleAll_present pick arg key slot st :
  requestCache st !! key = Some slot ->
  settleAll pick arg true key st =
    (with_requestCache (delete key) (notify_all pick arg slot st), Normal tt).
Proof.
  intros H. unfold settleAll, bind, gets. rewrite H.
  rewrite bool_decide_eq_true_2 by eauto. cbn [andb]. rewrite H.
  cbn [default]. rewrite forEach_loop. reflexivity.
Qed.

(** ** What one round and a whole loop leave behind *)

Lemma notify_requestCache f arg st :
  requestCache (notify f arg st) = requestCache st.
Proof. round f arg st; reflexivity. Qed.

Lemma notify_network f arg st : network (notify f arg st) = network st.
Proof. round f arg st; reflexivity. Qed.

Lemma notify_calls f arg st :
  calls (notify f arg st) = calls st ++ [(f, arg)].
Proof. round f arg st; reflexivity. Qed.

Lemma notify_console f arg st :
  console (notify f arg st) = console st ++ option_list (thrown_by f arg).
Proof. round f arg st; by rewrite ?app_nil_r. Qed.

Lemma notify_promises f arg st :
  promises (notify f arg st) =
    match settled_by f arg with
    | Some (p, s) =>
      match promises st !! p with
      | Some Pending => <[p := s]> (promises st)
      | _ => promises st
      end
    | None => promises st
    end.
Proof. round f arg st; reflexivity. Qed.

Lemma notify_all_cons pick arg t slot st :
  notify_all pick arg (t :: slot) st =
    notify_all pick arg slot (notify (pick t) arg st).
Proof. reflexivity. Qed.

Lemma notify_all_requestCache pick arg slot st :
  requestCache (notify_all pick arg slot st) = requestCache st.
Proof.
  revert st. induction slot as [|t slot IH]; intros st; [done|].
  by rewrite notify_all_cons, IH, notify_requestCache.
Qed.

Lemma notify_all_network pick arg slot st :
  network (notify_all pick arg slot st) = network st.
Proof.
  revert st. induction slot as [|t slot IH]; intros st; [done|].
  by rewrite notify_all_cons, IH, notify_network.
Qed.

Lemma notify_all_calls pick arg slot st :
  calls (notify_all pick arg slot st) =
    calls st ++ map (fun tuple => (pick tuple, arg)) slot.
Proof.
  revert st. induction slot as [|t slot IH]; intros st.
  - by rewrite app_nil_r.
  - by rewrite notify_all_cons, IH, notify_calls, <- app_assoc.
Qed.

Lemma notify_all_console pick arg slot st :
  console (notify_all pick arg slot st) =
    console st ++ omap (fun tuple => thrown_by (pick tuple) arg) slot.
Proof.
  revert st. induction slot as [|t slot IH]; intros st.
  - by rewrite app_nil_r.
  - rewrite notify_all_cons, IH, notify_console, <- app_assoc. cbn.
    by destruct (thrown_by (pick t) arg).
Qed.

Lemma settled_by_not_pending f arg p s :
  settled_by f arg = Some (p, s) -> s <> Pending.
Proof. destruct f; intros; by simplify_eq/=. Qed.

Lemma notify_settled_stays f arg st p s :
  promises st !! p = Some s -> s <> Pending ->
  promises (notify f arg st) !! p = Some s.
Proof.
  intros Hp Hs. rewrite notify_promises.
  destruct (settled_by f arg) as [[q s']|]; [|done].
  destruct (promises st !! q) as [[| |]|] eqn:Hq; try done.
  destruct (decide (q = p)) as [->|Hne]; [congruence|].
  by rewrite list_lookup_insert_ne.
Qed.

Lemma notify_settles f arg st p s :
  settled_by f arg = Some (p, s) ->
  promises st !! p = Some Pending ->
  promises (notify f arg st) !! p = Some s.
Proof.
  intros Hf Hp. rewrite notify_promises, Hf, Hp.
  apply list_lookup_insert_eq. by eapply lookup_lt_Some.
Qed.

Lemma notify_leaves f arg st p :
  (forall s, settled_by f arg <> Some (p, s)) ->
  promises (notify f arg st) !! p = promises st !! p.
Proof.
  intros Hf. rewrite notify_promises.
  destruct (settled_by f arg) as [[q s']|]; [|done].
  destruct (promises st !! q) as [[| |]|] eqn:Hq; try done.
  apply list_lookup_insert_ne. intros ->. by eapply Hf.
Qed.

Lemma notify_all_settled_stays pick arg slot st p s :
  promises st !! p = Some s -> s <> Pending ->
  promises (notify_all pick arg slot st) !! p = Some s.
Proof.
  revert st. induction slot as [|t slot IH]; intros st Hp Hs; [done|].
  rewrite notify_all_cons. apply IH; [|done].
  by apply notify_settled_stays.
Qed.

Lemma notify_all_leaves pick arg slot st p :
  (forall t s, t ∈ slot -> settled_by (pick t) arg <> Some (p, s)) ->
  promises (notify_all pick arg slot st) !! p = promises st !! p.
Proof.
  revert st. induction slot as [|t slot IH]; intros st Hslot; [done|].
  rewrite notify_all_cons, IH.
  - apply notify_leaves. intros s. apply Hslot. left.
  - intros t' s Ht'. apply Hslot. by right.
Qed.

(** When every call of the loop settles with [s], a pending promise that
    one of them names ends as [s]. *)
Lemma notify_all_settles pick arg slot st p s :
  (forall t q s', t ∈ slot -> settled_by (pick t) arg = Some (q, s') -> s' = s) ->
  (exists t, t ∈ slot /\ settled_by (pick t) arg = Some (p, s)) ->
  promises st !! p = Some Pending \/ promises st !! p = Some s ->
  promises (notify_all pick arg slot st) !! p = Some s.
Proof.
  revert st. induction slot as [|t slot IH]; intros st Hall [t0 [Hin Ht0]] Hp.
  { by apply elem_of_nil in Hin. }
  assert (Hs : s <> Pending) by (by eapply settled_by_not_pending).
  rewrite notify_all_cons.
  assert (Hhead : promises (notify (pick t) arg st) !! p = Some Pending \/
                  promises (notify (pick t) arg st) !! p = Some s).
  { destruct Hp as [Hp|Hp]; [|right; by apply notify_settled_stays].
    destruct (settled_by (pick t) arg) as [[q s']|] eqn:Ht.
    - destruct (decide (q = p)) as [->|Hne].
      + right. rewrite (Hall t p s') in Ht by (done || left).
        by apply notify_settles.
      + left. rewrite notify_leaves; [done|]. congruence.
    - left. rewrite notify_leaves; [done|]. congruence. }
  apply elem_of_cons in Hin as [->|Hin].
  - apply notify_all_settled_stays; [|done].
    destruct Hp; [by apply notify_settles | by apply notify_settled_stays].
  - apply IH; [|by eauto|done].
    intros t' q s' Ht'. apply Hall. by right.
Qed.

(** * The second piece of [customRequest] *)

Section Resume.
Context {js : JsBuiltins} {repo : HttpRepository}.

Lemma try_block_ok response :
  Response.ok response = true ->
  try_block (FetchResolved response) = Response.text response.
Proof. intros H. unfold try_block, handleError. by rewrite H. Qed.

Lemma try_block_body_failure response e :
  Response.text response = Throw e ->
  try_block (FetchResolved response) = Throw e.
Proof.
  intros H. unfold try_block, handleError.
  destruct (Response.ok response); by rewrite H.
Qed.

Lemma try_block_failed response :
  Response.ok response = false ->
  try_block (FetchResolved response) =
    match handleError response with
    | Throw e => Throw e
    | Normal response => Response.text response
    end.
Proof. reflexivity. Qed.

Lemma settleAll_normal pick arg cacheable key st :
  settleAll pick arg cacheable key st =
    (fst (settleAll pick arg cacheable key st), Normal tt).
Proof.
  destruct cacheable; [|done].
  destruct (requestCache st !! key) as [slot|] eqn:H.
  - by rewrite (settleAll_present _ _ _ _ _ H).
  - by rewrite (settleAll_absent _ _ _ _ _ H).
Qed.

Lemma resume_thrown type url body modelConstructor reply e st :
  try_block reply = Throw e ->
  customRequest_resume type url body modelConstructor reply st =
    (fst (rejectAll e (isCacheable type) (cacheKey type url) st), Throw e).
Proof.
  intros H. unfold customRequest_resume, bind, try_catch, lift, throw.
  rewrite H. unfold rejectAll. by rewrite settleAll_normal.
Qed.

Lemma resume_coerced type url body modelConstructor reply primitive st :
  try_block reply = Normal primitive ->
  customRequest_resume type url body modelConstructor reply st =
    match coerce modelConstructor primitive with
    | ParseThrew e => (st, Throw e)
    | WrongType error =>
      (fst (rejectAll error (isCacheable type) (cacheKey type url) st),
       Throw error)
    | Data data =>
      (fst (resolveAll data (isCacheable type) (cacheKey type url) st),
       Normal data)
    end.
Proof.
  intros H. unfold customRequest_resume, bind, try_catch, lift, throw, ret.
  rewrite H. unfold rejectAll, resolveAll.
  destruct (coerce modelConstructor primitive);
    [by rewrite settleAll_normal | done | by rewrite settleAll_normal].
Qed.

(** After the loop of a cacheable request the key is not in the cache. *)
Lemma settled_key_gone pick arg key st :
  requestCache (fst (settleAll pick arg true key st)) !! key = None.
Proof.
  destruct (requestCache st !! key) as [slot|] eqn:H.
  - rewrite (settleAll_present _ _ _ _ _ H). apply lookup_delete_eq.
  - by rewrite (settleAll_absent _ _ _ _ _ H).
Qed.

Lemma settled_network pick arg cacheable key st :
  network (fst (settleAll pick arg cacheable key st)) = network st.
Proof.
  destruct cacheable; [|done].
  destruct (requestCache st !! key) as [slot|] eqn:H.
  - rewrite (settleAll_present _ _ _ _ _ H). apply notify_all_network.
  - by rewrite (settleAll_absent _ _ _ _ _ H).
Qed.

(** Calls with different methods or urls never share a key. *)
Lemma cacheKey_inj type1 url1 type2 url2 :
  cacheKey type1 url1 = cacheKey type2 url2 -> type1 = type2 /\ url1 = url2.
Proof.
  unfold cacheKey. intros H.
  destruct type1, type2; cbv in H; by simplify_eq.
Qed.

(** A call for a key that is not in the cache goes to the network. *)
Lemma enter_fetches type url body modelConstructor st :
  isCacheable type = false \/ requestCache st !! cacheKey type url = None ->
  exists st',
    customRequest_enter type url body modelConstructor st =
      (st', AwaitFetch) /\
    network st' =
      network st ++ [{| fetch_url := url;
                        fetch_method := type;
                        fetch_body := body ≫= JSON_stringify;
                        fetch_headers := setHeaders;
                        fetch_credentials := "include" |}] /\
    promises st' = promises st /\
    requestCache st' =
      if isCacheable type
      then <[cacheKey type url := []]> (requestCache st)
      else requestCache st.
Proof.
  intros H. unfold customRequest_enter.
  replace (isCacheable type &&
           bool_decide (is_Some (requestCache st !! cacheKey type url)))
    with false.
  - eexists. split; [reflexivity|]. by destruct (isCacheable type).
  - destruct H as [-> | ->]; [done|].
    rewrite bool_decide_eq_false_2 by (by intros [? ?]).
    by rewrite andb_false_r.
Qed.

(** A cacheable call for a key that is in the cache joins its slot. *)
Lemma enter_joins type url body modelConstructor slot st :
  isCacheable type = true ->
  requestCache st !! cacheKey type url = Some slot ->
  customRequest_enter type url body modelConstructor st =
    ({| requestCache := <[cacheKey type url :=
                            slot ++ [waiter (length (promises st))]]>
                          (requestCache st);
        promises := promises st ++ [Pending];
        network := network st;
        console := console st;
        calls := calls st |},
     AwaitSlot (length (promises st))).
Proof.
  intros Hc H. unfold customRequest_enter. rewrite Hc, H.
  rewrite bool_decide_eq_true_2 by eauto. cbn [andb].
  unfold with_requestCache, with_promises; cbn. repeat f_equal.
  apply map_eq. intros k. rewrite lookup_alter.
  destruct (decide (cacheKey type url = k)) as [<-|Hne].
  - by rewrite lookup_insert_eq, H.
  - by rewrite lookup_insert_ne.
Qed.
End Resume.

(** * The claims about one settlement *)

(** C8. A call that joins a slot puts its tuple at the end of it.  When a
    slot is settled, by resolving or by rejecting, the chosen function of
    every tuple is called, in the order of the slot; what any of them throws
    is printed with [console.error], in that order, the later tuples are
    called all the same, and the settlement itself ends normally. *)
Theorem fan_out_reaches_every_waiter {js : JsBuiltins}
    {repo : HttpRepository} (pick : Fn * Fn -> Fn) (arg : JsValue)
    (type : Methods) (url : string) (body : option JsValue)
    (modelConstructor : JsValue) (slot : list (Fn * Fn)) (st : State) :
  isCacheable type = true ->
  requestCache st !! cacheKey type url = Some slot ->
  requestCache (fst (customRequest_enter type url body modelConstructor st))
    !! cacheKey type url = Some (slot ++ [waiter (length (promises st))]) /\
  exists st',
    settleAll pick arg true (cacheKey type url) st = (st', Normal tt) /\
    calls st' = calls st ++ map (fun tuple => (pick tuple, arg)) slot /\
    console st' =
      console st ++ omap (fun tuple => thrown_by (pick tuple) arg) slot.
Proof.
  intros Hc H. split.
  - rewrite (enter_joins _ _ _ _ _ _ Hc H). apply lookup_insert_eq.
  - eexists. split; [by apply settleAll_present|].
    split; [apply notify_all_calls | apply notify_all_console].
Qed.

Lemma fan_out_reaches_every_waiter_witness :
  let faulty := Foreign 7 (fun _ => Some (JString "waiter failed")) in
  let slot := [waiter 0; (faulty, faulty); waiter 1] in
  let st := {| requestCache := {[ "GET /users" := slot ]};
               promises := [Pending; Pending];
               network := []; console := []; calls := [] |} in
  (isCacheable GET = true /\
   requestCache st !! cacheKey GET "/users" = Some slot) /\
  requestCache (fst (customRequest_enter (js := sample_builtins)
                       (repo := base "/api") GET "/users" None JNull st))
    !! cacheKey GET "/users" = Some (slot ++ [waiter 2]) /\
  exists st',
    resolveAll (JString "ok") true (cacheKey GET "/users") st
      = (st', Normal tt) /\
    calls st' = [(PromiseResolve 0, JString "ok"); (faulty, JString "ok");
                 (PromiseResolve 1, JString "ok")] /\
    console st' = [JString "waiter failed"].
Proof.
  intros faulty slot st.
  assert (H : requestCache st !! cacheKey GET "/users" = Some slot)
    by reflexivity.
  split; [by split|].
  exact (fan_out_reaches_every_waiter (js := sample_builtins)
           (repo := base "/api") fst (JString "ok") GET "/users" None JNull
           slot st eq_refl H).
Defined.

(** C4. When the fetch of a cacheable request fails, the reject function
    of every tuple of the slot is called with the raised error, in order,
    so every promise waiting there is rejected with it; the slot is removed,
    and the call ends by throwing the same error. *)
Theorem transport_failure_rejects_waiters {js : JsBuiltins}
    {repo : HttpRepository} (type : Methods) (url : string)
    (body : option JsValue) (modelConstructor e : JsValue)
    (slot : list (Fn * Fn)) (st : State) :
  isCacheable type = true ->
  requestCache st !! cacheKey type url = Some slot ->
  exists st',
    customRequest_resume type url body modelConstructor (FetchRejected e) st
      = (st', Throw e) /\
    calls st' = calls st ++ map (fun tuple => (snd tuple, e)) slot /\
    requestCache st' !! cacheKey type url = None /\
    forall p, waiter p ∈ slot ->
      (forall tuple, tuple ∈ slot -> exists q, tuple = waiter q) ->
      promises st !! p = Some Pending ->
      promises st' !! p = Some (Rejected e).
Proof.
  intros Hc H. eexists. split; [by apply resume_thrown|].
  rewrite Hc. unfold rejectAll. rewrite (settleAll_present _ _ _ _ _ H).
  split; [apply notify_all_calls|]. split; [apply lookup_delete_eq|].
  intros p Hp Hslot Hpending. cbn.
  apply notify_all_settles; [| |by left].
  - intros t q s' Ht Hs. destruct (Hslot t Ht) as [q' ->].
    by simplify_eq/=.
  - by exists (waiter p).
Qed.

Lemma transport_failure_rejects_waiters_witness :
  let refused := JNativeError "TypeError" "Failed to fetch" in
  let st := {| requestCache := {[ "GET /users" := [waiter 0; waiter 1] ]};
               promises := [Pending; Pending];
               network := []; console := []; calls := [] |} in
  (isCacheable GET = true /\
   requestCache st !! cacheKey GET "/users" = Some [waiter 0; waiter 1]) /\
  exists st',
    customRequest_resume (js := sample_builtins) (repo := base "/api")
        GET "/users" None (JObject []) (FetchRejected refused) st
      = (st', Throw refused) /\
    calls st' = calls st ++ map (fun tuple => (snd tuple, refused))
                                [waiter 0; waiter 1] /\
    requestCache st' !! cacheKey GET "/users" = None /\
    forall p, waiter p ∈ [waiter 0; waiter 1] ->
      (forall tuple, tuple ∈ [waiter 0; waiter 1] ->
                     exists q, tuple = waiter q) ->
      promises st !! p = Some Pending ->
      promises st' !! p = Some (Rejected refused).
Proof.
  intros refused st.
  assert (H : requestCache st !! cacheKey GET "/users"
              = Some [waiter 0; waiter 1]) by reflexivity.
  split; [by split|].
  exact (transport_failure_rejects_waiters (js := sample_builtins)
           (repo := base "/api") GET "/users" None (JObject []) refused
           [waiter 0; waiter 1] st eq_refl H).
Defined.

Section Settled.
Context {js : JsBuiltins} {repo : HttpRepository}.

(** However a request settles, its second piece ends as the settlement says
    and, for a cacheable one, leaves its key out of the cache. *)
Lemma resume_settles type url body modelConstructor reply s st :
  settles modelConstructor reply s ->
  customRequest_resume type url body modelConstructor reply st =
    (fst (settleAll (pick_of s) (arg_of s) (isCacheable type)
            (cacheKey type url) st),
     completion_of s).
Proof.
  intros Hs. destruct Hs as
    [response primitive data Hok Htext Hdata
    |response text e Hok Htext Herr
    |e
    |response e Htext
    |response primitive error Hok Htext Herror]; cbn.
  - rewrite (resume_coerced _ _ _ _ _ primitive)
      by (by rewrite try_block_ok).
    by rewrite Hdata.
  - apply resume_thrown. by rewrite try_block_failed, Herr.
  - by apply resume_thrown.
  - apply resume_thrown. by apply try_block_body_failure.
  - rewrite (resume_coerced _ _ _ _ _ primitive)
      by (by rewrite try_block_ok).
    by rewrite Herror.
Qed.
End Settled.

(** C2. Once a cacheable request has settled, by success, by a classified
    HTTP error, by a transport failure or by a type mismatch, its key is no
    longer in the cache, and the next call with that method and url goes to
    the network again; and settling a key that has no slot changes
    nothing. *)
Theorem settled_slot_is_removed {js : JsBuiltins} {repo : HttpRepository}
    (type : Methods) (url : string) (body : option JsValue)
    (modelConstructor : JsValue) (reply : FetchOutcome) (s : Settlement)
    (st : State) :
  isCacheable type = true ->
  settles modelConstructor reply s ->
  (exists st',
     customRequest_resume type url body modelConstructor reply st =
       (st', completion_of s) /\
     requestCache st' !! cacheKey type url = None /\
     forall body' modelConstructor', exists st'',
       customRequest_enter type url body' modelConstructor' st' =
         (st'', AwaitFetch) /\
       network st'' =
         network st ++ [{| fetch_url := url;
                           fetch_method := type;
                           fetch_body := body' ≫= JSON_stringify;
                           fetch_headers := setHeaders;
                           fetch_credentials := "include" |}]) /\
  (forall pick arg cacheable key (st0 : State),
     requestCache st0 !! key = None ->
     settleAll pick arg cacheable key st0 = (st0, Normal tt)).
Proof.
  intros Hc Hs. split; [|intros; by apply settleAll_absent].
  rewrite (resume_settles type url body _ _ _ st Hs), Hc.
  eexists. split; [reflexivity|].
  split; [apply settled_key_gone|].
  intros body' modelConstructor'.
  destruct (enter_fetches type url body' modelConstructor'
              (fst (settleAll (pick_of s) (arg_of s) true
                      (cacheKey type url) st)))
    as (st'' & Henter & Hnet & _).
  { right. apply settled_key_gone. }
  exists st''. split; [done|]. by rewrite Hnet, settled_network.
Qed.

Lemma settled_slot_is_removed_witness :
  let response := {| Response.status := 200; Response.statusText := "OK";
                     Response.text := Normal "[]" |} in
  let st := {| requestCache := {[ "GET /users" := [waiter 0] ]};
               promises := [Pending];
               network := []; console := []; calls := [] |} in
  (isCacheable GET = true /\
   settles (js := sample_builtins) (repo := base "/api")
     (JArray []) (FetchResolved response) (Success (JArray []))) /\
  (exists st',
     customRequest_resume (js := sample_builtins) (repo := base "/api")
         GET "/users" None (JArray []) (FetchResolved response) st =
       (st', Normal (JArray [])) /\
     requestCache st' !! cacheKey GET "/users" = None /\
     forall body' modelConstructor', exists st'',
       customRequest_enter (js := sample_builtins) (repo := base "/api")
           GET "/users" body' modelConstructor' st' =
         (st'', AwaitFetch) /\
       network st'' =
         network st ++ [{| fetch_url := "/users";
                           fetch_method := GET;
                           fetch_body := None;
                           fetch_headers := base_setHeaders;
                           fetch_credentials := "include" |}]) /\
  (forall pick arg cacheable key (st0 : State),
     requestCache st0 !! key = None ->
     settleAll pick arg cacheable key st0 = (st0, Normal tt)).
Proof.
  intros response st.
  assert (Hs : settles (js := sample_builtins) (repo := base "/api")
                 (JArray []) (FetchResolved response) (Success (JArray [])))
    by (by apply (settles_success _ response "[]")).
  split; [by split|].
  destruct (settled_slot_is_removed (js := sample_builtins)
              (repo := base "/api") GET "/users" None (JArray [])
              (FetchResolved response) (Success (JArray [])) st eq_refl Hs)
    as [(st' & Hrun & Hgone & Hnext) Hnoop].
  split; [|exact Hnoop].
  exists st'. split; [exact Hrun|]. split; [exact Hgone|].
  intros body' modelConstructor'.
  destruct (Hnext body' modelConstructor') as (st'' & Henter & Hnet).
  exists st''. split; [exact Henter|].
  rewrite Hnet. by destruct body'.
Defined.

(** * The coercion by the declared model *)

Section Coercion.
Context {js : JsBuiltins}.

Lemma parsed_not_wrong_type c error : parsed c <> WrongType error.
Proof. by destruct c. Qed.


(** An array is an object to [typeof], so with a text that starts with a
    brace the second rule takes it. *)
Lemma array_model_object_text elements primitive :
  startsWith "{" primitive = true ->
  coerce (JArray elements) primitive = parsed (JSON_parse primitive).
Proof.
  intros H. unfold coerce. rewrite H.
  destruct primitive as [|c primitive]; [done|].
  by destruct (startsWith "[" (String c primitive)).
Qed.

(** An array model and any other text: the wrong-type error. *)
Lemma array_model_other_text elements primitive :
  startsWith "[" primitive = false ->
  startsWith "{" primitive = false ->
  coerce (JArray elements) primitive =
    WrongType (JNormalized (NetError
      "Wrong returned type. Must by object but return string" None)).
Proof. intros H1 H2. unfold coerce. by rewrite H1, H2. Qed.

Lemma array_model_quoted_text elements :
  coerce (JArray elements) (quoted "not-an-array") =
    WrongType (JNormalized (NetError
      "Wrong returned type. Must by object but return string" None)).
Proof. by apply array_model_other_text. Qed.

Lemma boolean_model b primitive :
  coerce (JBoolean b) primitive = Data (JBoolean (Boolean primitive)).
Proof. reflexivity. Qed.
End Coercion.

(** C3, where the code leaves it.  With an array as the declared model and
    the text [{}] of an ok response, which does not start with [[], the
    rule for objects matches: the call ends with whatever [JSON.parse]
    makes of the text, never with the wrong-type error. *)
Theorem array_model_accepts_object_text {js : JsBuiltins}
    {repo : HttpRepository} (type : Methods) (url : string)
    (body : option JsValue) (elements : list JsValue) (st : State) :
  let response := {| Response.status := 200; Response.statusText := "OK";
                     Response.text := Normal "{}" |} in
  startsWith "[" "{}" = false /\
  coerce (JArray elements) "{}" = parsed (JSON_parse "{}") /\
  (forall error, coerce (JArray elements) "{}" <> WrongType error) /\
  customRequest_resume type url body (JArray elements)
      (FetchResolved response) st =
    match JSON_parse "{}" with
    | Normal data =>
      (fst (resolveAll data (isCacheable type) (cacheKey type url) st),
       Normal data)
    | Throw e => (st, Throw e)
    end.
Proof.
  intros response. split; [done|].
  assert (H : coerce (JArray elements) "{}" = parsed (JSON_parse "{}"))
    by (by apply array_model_object_text).
  split; [done|]. split.
  - intros error. rewrite H. apply parsed_not_wrong_type.
  - rewrite (resume_coerced _ _ _ _ _ "{}") by done.
    rewrite H. by destruct (JSON_parse "{}").
Qed.

(** C10. With a boolean as the declared model the text of an ok response
    always yields a boolean, never the wrong-type error: [true] for every
    text but the empty one, the text "false" included, and [false] for the
    empty text. *)
Theorem boolean_model_never_mismatches {js : JsBuiltins}
    {repo : HttpRepository} (type : Methods) (url : string)
    (body : option JsValue) (b : bool) (response : Response.t)
    (primitive : string) (st : State) :
  Response.ok response = true ->
  Response.text response = Normal primitive ->
  coerce (JBoolean b) primitive = Data (JBoolean (Boolean primitive)) /\
  snd (customRequest_resume type url body (JBoolean b)
         (FetchResolved response) st) = Normal (JBoolean (Boolean primitive)) /\
  Boolean primitive = negb (String.eqb primitive EmptyString) /\
  Boolean "false" = true /\
  Boolean EmptyString = false.
Proof.
  intros Hok Htext. split; [done|]. split.
  - rewrite (resume_coerced _ _ _ _ _ primitive)
      by (by rewrite try_block_ok).
    by rewrite boolean_model.
  - split; [by destruct primitive | done].
Qed.

Lemma boolean_model_never_mismatches_witness :
  let response := {| Response.status := 200; Response.statusText := "OK";
                     Response.text := Normal "false" |} in
  (Response.ok response = true /\
   Response.text response = Normal "false") /\
  coerce (js := sample_builtins) (JBoolean false) "false" =
    Data (JBoolean (Boolean "false")) /\
  snd (customRequest_resume (js := sample_builtins) (repo := base "/api")
         GET "/flag" None (JBoolean false)
         (FetchResolved response) empty_state) =
    Normal (JBoolean (Boolean "false")) /\
  Boolean "false" = negb (String.eqb "false" EmptyString) /\
  Boolean "false" = true /\
  Boolean EmptyString = false.
Proof.
  intros response. split; [by split|].
  exact (boolean_model_never_mismatches (js := sample_builtins)
           (repo := base "/api") GET "/flag" None false response "false"
           empty_state eq_refl eq_refl).
Defined.

(** * Promises across a loop *)

Lemma notify_length f arg st :
  length (promises (notify f arg st)) = length (promises st).
Proof.
  rewrite notify_promises.
  destruct (settled_by f arg) as [[q s]|]; [|done].
  destruct (promises st !! q) as [[| |]|]; try done.
  apply length_insert.
Qed.

Lemma notify_all_length pick arg slot st :
  length (promises (notify_all pick arg slot st)) = length (promises st).
Proof.
  revert st. induction slot as [|t slot IH]; intros st; [done|].
  by rewrite notify_all_cons, IH, notify_length.
Qed.

Lemma notify_pending_before f arg st p :
  promises (notify f arg st) !! p = Some Pending ->
  promises st !! p = Some Pending.
Proof.
  intros H. destruct (promises st !! p) as [s|] eqn:Hp.
  - destruct s as [|v|e]; [done| |];
      by rewrite (notify_settled_stays _ _ _ _ _ Hp) in H.
  - apply lookup_ge_None in Hp. rewrite <- (notify_length f arg) in Hp.
    apply lookup_ge_None in Hp. congruence.
Qed.

Lemma notify_all_pending_before pick arg slot st p :
  promises (notify_all pick arg slot st) !! p = Some Pending ->
  promises st !! p = Some Pending.
Proof.
  revert st. induction slot as [|t slot IH]; intros st H; [done|].
  rewrite notify_all_cons in H. eauto using notify_pending_before.
Qed.

Lemma notify_not_pending f arg st p s :
  settled_by f arg = Some (p, s) ->
  promises (notify f arg st) !! p <> Some Pending.
Proof.
  intros Hf H. pose proof (notify_pending_before _ _ _ _ H) as Hp.
  rewrite (notify_settles _ _ _ _ _ Hf Hp) in H.
  apply (settled_by_not_pending _ _ _ _ Hf). congruence.
Qed.

Lemma notify_all_not_pending pick arg slot st p :
  (exists t s, t ∈ slot /\ settled_by (pick t) arg = Some (p, s)) ->
  promises (notify_all pick arg slot st) !! p <> Some Pending.
Proof.
  revert st. induction slot as [|t slot IH]; intros st (t0 & s & Hin & Ht0).
  { by apply elem_of_nil in Hin. }
  rewrite notify_all_cons. apply elem_of_cons in Hin as [->|Hin].
  - intros H. apply notify_all_pending_before in H.
    by eapply notify_not_pending.
  - apply IH. eauto.
Qed.

(** * The cache stays consistent *)

Section Consistency.
Context {js : JsBuiltins} {repo : HttpRepository}.

(** The heap after a loop: untouched, or the slot notified and removed. *)
Lemma settleAll_heap pick arg flag key st :
  fst (settleAll pick arg flag key st) = st \/
  exists slot,
    flag = true /\ requestCache st !! key = Some slot /\
    fst (settleAll pick arg flag key st) =
      with_requestCache (delete key) (notify_all pick arg slot st).
Proof.
  destruct flag; [|by left].
  destruct (requestCache st !! key) as [slot|] eqn:H.
  - right. exists slot. by rewrite (settleAll_present _ _ _ _ _ H).
  - left. by rewrite (settleAll_absent _ _ _ _ _ H).
Qed.

Lemma resume_heap type url body modelConstructor reply st :
  fst (customRequest_resume type url body modelConstructor reply st) = st \/
  exists pick arg slot,
    (pick = fst \/ pick = snd) /\
    isCacheable type = true /\
    requestCache st !! cacheKey type url = Some slot /\
    fst (customRequest_resume type url body modelConstructor reply st) =
      with_requestCache (delete (cacheKey type url))
                        (notify_all pick arg slot st).
Proof.
  assert (Hloop : forall pick arg c,
    (pick = fst \/ pick = snd) ->
    customRequest_resume type url body modelConstructor reply st =
      (fst (settleAll pick arg (isCacheable type) (cacheKey type url) st), c) ->
    fst (customRequest_resume type url body modelConstructor reply st) = st \/
    exists pick arg slot,
      (pick = fst \/ pick = snd) /\
      isCacheable type = true /\
      requestCache st !! cacheKey type url = Some slot /\
      fst (customRequest_resume type url body modelConstructor reply st) =
        with_requestCache (delete (cacheKey type url))
                          (notify_all pick arg slot st)).
  { intros pick arg c Hpick ->. cbn [fst].
    destruct (settleAll_heap pick arg (isCacheable type)
                (cacheKey type url) st) as [->|(slot & Hc & Hs & ->)];
      [by left|].
    right. by exists pick, arg, slot. }
  destruct (try_block reply) as [primitive|e] eqn:Htry.
  - pose proof (resume_coerced type url body modelConstructor _ _ st Htry)
      as H.
    destruct (coerce modelConstructor primitive) as [data|e|error].
    + eapply (Hloop fst); [by left | exact H].
    + left. by rewrite H.
    + eapply (Hloop snd); [by right | exact H].
  - eapply (Hloop snd); [by right|]. by apply resume_thrown.
Qed.

Lemma consistent_boot : consistent boot.
Proof. split; cbn; intros; simplify_eq; by rewrite ?lookup_nil in *. Qed.
End Consistency.

Section Steps.
Context {js : JsBuiltins} {repo : HttpRepository}.

Lemma invoke_cases (w : World) (r : Request) :
  (exists slot, cacheable r = true /\
                requestCache (heap w) !! key_of r = Some slot) \/
  (cacheable r = false \/ requestCache (heap w) !! key_of r = None).
Proof.
  destruct (cacheable r); [|by right; left].
  destruct (requestCache (heap w) !! key_of r) as [slot|]; [left|right]; eauto.
Qed.

(** A cacheable call whose key is in the cache joins: no [fetch]. *)
Lemma step_invoke_join (w : World) (r : Request) slot :
  cacheable r = true ->
  requestCache (heap w) !! key_of r = Some slot ->
  step (Invoke r) w =
    Some {| heap := {| requestCache :=
                         <[key_of r :=
                             slot ++ [waiter (length (promises (heap w)))]]>
                           (requestCache (heap w));
                       promises := promises (heap w) ++ [Pending];
                       network := network (heap w);
                       console := console (heap w);
                       calls := calls (heap w) |};
            tasks := tasks w ++
                     [Joined r (length (promises (heap w)))] |}.
Proof.
  intros Hc Hslot. unfold step.
  by rewrite (enter_joins _ _ _ _ slot _ Hc Hslot).
Qed.

(** Any other call goes to the network. *)
Lemma step_invoke_fetch (w : World) (r : Request) :
  cacheable r = false \/ requestCache (heap w) !! key_of r = None ->
  exists st',
    step (Invoke r) w =
      Some {| heap := st'; tasks := tasks w ++ [Fetching r] |} /\
    network st' =
      network (heap w) ++ [{| fetch_url := req_url r;
                              fetch_method := req_type r;
                              fetch_body := req_body r ≫= JSON_stringify;
                              fetch_headers := setHeaders;
                              fetch_credentials := "include" |}] /\
    promises st' = promises (heap w) /\
    requestCache st' =
      if cacheable r
      then <[key_of r := []]> (requestCache (heap w))
      else requestCache (heap w).
Proof.
  intros H.
  destruct (enter_fetches (req_type r) (req_url r) (req_body r)
              (req_model r) (heap w) H) as (st' & Henter & Hrest).
  exists st'. split; [|exact Hrest]. unfold step. by rewrite Henter.
Qed.

Lemma step_reply (w : World) t r reply :
  tasks w !! t = Some (Fetching r) ->
  step (Reply t reply) w =
    Some {| heap := fst (customRequest_resume (req_type r) (req_url r)
                           (req_body r) (req_model r) reply (heap w));
            tasks := <[t := Ended r
                         (snd (customRequest_resume (req_type r) (req_url r)
                                 (req_body r) (req_model r) reply (heap w)))]>
                       (tasks w) |}.
Proof.
  intros H. unfold step. rewrite H.
  by destruct (customRequest_resume (req_type r) (req_url r) (req_body r)
                 (req_model r) reply (heap w)).
Qed.

Lemma consistent_invoke w r w' :
  consistent w -> step (Invoke r) w = Some w' -> consistent w'.
Proof.
  intros [Hslot Huniq Hwait Halloc Hjoin] Hstep.
  destruct (invoke_cases w r) as [(slot & Hc & Hs)|Hfresh].
  - rewrite (step_invoke_join w r slot Hc Hs) in Hstep.
    injection Hstep as <-. split; cbn [heap tasks requestCache promises].
    + intros t r0 Ht Hc0. apply lookup_snoc_Some in Ht as [[_ Ht]|[_ ?]];
        [|done].
      apply lookup_insert_is_Some'. right. eauto.
    + intros t1 t2 r1 r2 H1 H2.
      apply lookup_snoc_Some in H1 as [[_ H1]|[_ ?]]; [|done].
      apply lookup_snoc_Some in H2 as [[_ H2]|[_ ?]]; [|done].
      eauto.
    + intros k slot' tuple Hk Hin.
      apply lookup_insert_Some in Hk as [[<- <-]|[_ Hk]]; [|eauto].
      apply elem_of_app in Hin as [Hin|Hin]; [eauto|].
      apply list_elem_of_singleton in Hin. eauto.
    + intros t r0 p Ht. rewrite length_app. cbn.
      apply lookup_snoc_Some in Ht as [[_ Ht]|[_ ?]].
      * apply Halloc in Ht. lia.
      * simplify_eq. lia.
    + intros t r0 p Ht Hp.
      apply lookup_snoc_Some in Ht as [[_ Ht]|[_ ?]].
      * rewrite lookup_app_l in Hp by eauto.
        destruct (Hjoin _ _ _ Ht Hp) as (slot0 & Hs0 & Hin0).
        destruct (decide (key_of r = key_of r0)) as [Heq|Hne].
        -- rewrite <- Heq in *. simplify_eq.
           exists (slot ++ [waiter (length (promises (heap w)))]).
           rewrite lookup_insert_eq. split; [done|].
           apply elem_of_app. by left.
        -- exists slot0. by rewrite lookup_insert_ne.
      * simplify_eq.
        exists (slot ++ [waiter (length (promises (heap w)))]).
        rewrite lookup_insert_eq. split; [done|].
        apply elem_of_app. right. by apply list_elem_of_singleton.
  - destruct (step_invoke_fetch w r Hfresh)
      as (st' & Hstep' & _ & Hp & Hcache).
    rewrite Hstep' in Hstep. injection Hstep as <-.
    assert (Hkeep : forall k, k <> key_of r \/ cacheable r = false ->
              requestCache st' !! k = requestCache (heap w) !! k).
    { intros k Hk. rewrite Hcache. destruct (cacheable r); [|done].
      destruct Hk as [Hk|?]; [|done]. by rewrite lookup_insert_ne. }
    split; cbn [heap tasks]; rewrite ?Hp.
    + intros t r0 Ht Hc0. rewrite Hcache.
      apply lookup_snoc_Some in Ht as [[_ Ht]|[_ ?]].
      * destruct (cacheable r); [|eauto].
        apply lookup_insert_is_Some'. right. eauto.
      * simplify_eq. rewrite Hc0. rewrite lookup_insert_eq. eauto.
    + intros t1 t2 r1 r2 H1 H2 Hc1 Hkey.
      assert (Hnew : forall t0 r0,
                tasks w !! t0 = Some (Fetching r0) ->
                key_of r0 = key_of r -> cacheable r0 = true ->
                cacheable r = true -> False).
      { intros t0 r0 Ht0 Hk0 Hc0 Hcr.
        destruct (Hslot _ _ Ht0 Hc0) as [slot0 Hs0].
        destruct Hfresh as [?|Hnone]; congruence. }
      assert (Hsame : forall r0, key_of r0 = key_of r ->
                cacheable r0 = cacheable r).
      { intros r0 Hk0. unfold key_of, cacheKey, cacheable in *.
        destruct (req_type r0), (req_type r); by simplify_eq/=. }
      apply lookup_snoc_Some in H1 as [[? H1]|[-> ?]];
        apply lookup_snoc_Some in H2 as [[? H2]|[-> ?]];
        simplify_eq; [eauto | | | done].
      * exfalso. apply (Hnew _ _ H1 Hkey Hc1).
        by rewrite <- (Hsame _ Hkey).
      * exfalso. symmetry in Hkey.
        apply (Hnew _ _ H2 Hkey); [|done].
        by rewrite (Hsame _ Hkey).
    + intros k slot' tuple Hk Hin. rewrite Hcache in Hk.
      destruct (cacheable r); [|eauto].
      apply lookup_insert_Some in Hk as [[<- <-]|[_ Hk]]; [|eauto].
      by apply elem_of_nil in Hin.
    + intros t r0 p Ht.
      apply lookup_snoc_Some in Ht as [[_ Ht]|[_ ?]]; [eauto|done].
    + intros t r0 p Ht Hpend.
      apply lookup_snoc_Some in Ht as [[_ Ht]|[_ ?]]; [|done].
      destruct (Hjoin _ _ _ Ht Hpend) as (slot0 & Hs0 & Hin0).
      exists slot0. split; [|done]. rewrite Hkeep; [done|].
      destruct Hfresh as [?|Hnone]; [by right|left]. congruence.
Qed.
End Steps.

Section Invariant.
Context {js : JsBuiltins} {repo : HttpRepository}.

Lemma waiter_settled_by pick arg p :
  pick = fst \/ pick = snd ->
  exists s, settled_by (pick (waiter p)) arg = Some (p, s).
Proof. intros [-> | ->]; cbn; eauto. Qed.

Lemma consistent_reply w t reply w' :
  consistent w -> step (Reply t reply) w = Some w' -> consistent w'.
Proof.
  intros [Hslot Huniq Hwait Halloc Hjoin] Hstep.
  destruct (tasks w !! t) as [[r|r p|r c]|] eqn:Ht;
    try (unfold step in Hstep; rewrite Ht in Hstep; discriminate).
  rewrite (step_reply w t r reply Ht) in Hstep. injection Hstep as <-.
  assert (Hold : forall t0 task,
            (forall r0 c0, task <> Ended r0 c0) ->
            <[t := Ended r
                (snd (customRequest_resume (req_type r) (req_url r)
                        (req_body r) (req_model r) reply (heap w)))]>
              (tasks w) !! t0 = Some task ->
            t0 <> t /\ tasks w !! t0 = Some task).
  { intros t0 task Htask H0.
    apply list_lookup_insert_Some in H0 as [(-> & <- & _)|[Hne H0]].
    - by edestruct Htask.
    - by split. }
  destruct (resume_heap (req_type r) (req_url r) (req_body r) (req_model r)
              reply (heap w))
    as [Hsame|(pick & arg & slot & Hpick & Hc & Hs & Hheap)].
  - split; cbn [heap tasks]; rewrite ?Hsame.
    + intros t0 r0 H0. apply Hold in H0 as [_ H0]; [eauto|done].
    + intros t1 t2 r1 r2 H1 H2.
      apply Hold in H1 as [_ H1]; [|done].
      apply Hold in H2 as [_ H2]; [eauto|done].
    + done.
    + intros t0 r0 p H0. apply Hold in H0 as [_ H0]; [eauto|done].
    + intros t0 r0 p H0. apply Hold in H0 as [_ H0]; [eauto|done].
  - split; cbn [heap tasks]; rewrite ?Hheap; cbn [requestCache promises
      with_requestCache]; rewrite ?notify_all_requestCache.
    + intros t0 r0 H0 Hc0. apply Hold in H0 as [Hne H0]; [|done].
      rewrite lookup_delete_ne; [eauto|].
      intros Hkey. apply Hne. symmetry in Hkey. eauto.
    + intros t1 t2 r1 r2 H1 H2.
      apply Hold in H1 as [_ H1]; [|done].
      apply Hold in H2 as [_ H2]; [eauto|done].
    + intros k slot' tuple Hk.
      apply lookup_delete_Some in Hk as [_ Hk]. eauto.
    + intros t0 r0 p H0. apply Hold in H0 as [_ H0]; [|done].
      rewrite notify_all_length. eauto.
    + intros t0 r0 p H0 Hp. apply Hold in H0 as [_ H0]; [|done].
      pose proof (notify_all_pending_before _ _ _ _ _ Hp) as Hbefore.
      destruct (Hjoin _ _ _ H0 Hbefore) as (slot0 & Hs0 & Hin0).
      exists slot0. split; [|done].
      rewrite lookup_delete_ne; [done|].
      intros Hkey. rewrite <- Hkey, Hs in Hs0.
      injection Hs0 as <-.
      apply (notify_all_not_pending pick arg slot (heap w) p); [|done].
      destruct (waiter_settled_by pick arg p Hpick) as [s Hsettled].
      by exists (waiter p), s.
Qed.

Lemma consistent_step w ev w' :
  consistent w -> step ev w = Some w' -> consistent w'.
Proof.
  destruct ev; eauto using consistent_invoke, consistent_reply.
Qed.

Lemma reachable_consistent w : reachable w -> consistent w.
Proof.
  induction 1; eauto using consistent_boot, consistent_step.
Qed.

(** When the reply settles a cacheable request, its caller and every call
    waiting on its key end the same way. *)
Lemma reply_reaches_joiners w t r reply s :
  consistent w ->
  tasks w !! t = Some (Fetching r) ->
  cacheable r = true ->
  settles (req_model r) reply s ->
  exists w',
    step (Reply t reply) w = Some w' /\
    received w' t = Some (completion_of s) /\
    requestCache (heap w') !! key_of r = None /\
    network (heap w') = network (heap w) /\
    forall t' r' p,
      tasks w !! t' = Some (Joined r' p) ->
      req_type r' = req_type r -> req_url r' = req_url r ->
      promises (heap w) !! p = Some Pending ->
      received w' t' = Some (completion_of s).
Proof.
  intros Hw Ht Hc Hs. eexists. split; [by apply step_reply|].
  rewrite (resume_settles _ _ _ _ _ _ _ Hs). cbn [fst snd].
  unfold cacheable in Hc. rewrite Hc.
  assert (Hlen : t < length (tasks w)) by (by eapply lookup_lt_Some).
  split; [|split; [|split]].
  - unfold received; cbn [tasks]. by rewrite list_lookup_insert_eq.
  - apply settled_key_gone.
  - apply settled_network.
  - intros t' r' p Ht' Htype Hurl Hp.
    unfold received; cbn [tasks heap].
    rewrite list_lookup_insert_ne by congruence. rewrite Ht'.
    destruct (joined_in_slot w Hw _ _ _ Ht' Hp) as (slot & Hslot & Hin).
    unfold key_of in Hslot. rewrite Htype, Hurl in Hslot.
    rewrite (settleAll_present _ _ _ _ _ Hslot).
    cbn [fst promises with_requestCache].
    rewrite (notify_all_settles (pick_of s) (arg_of s) slot (heap w) p
               (settled_as s)).
    + by destruct s.
    + intros tuple q s' Htuple Hsettled.
      destruct (slots_hold_waiters w Hw _ _ _ Hslot Htuple) as [q' ->].
      destruct s; by simplify_eq/=.
    + exists (waiter p). split; [done|]. by destruct s.
    + by left.
Qed.
End Invariant.

(** * A slot that nobody owns *)

Section Stranded.
Context {js : JsBuiltins} {repo : HttpRepository}.

Lemma stranded_invoke k t p w r w' :
  stranded k t p w -> step (Invoke r) w = Some w' -> stranded k t p w'.
Proof.
  intros [[r0 Htask] Hpend [kslot Hk] Hfree Honly] Hstep.
  assert (Hp : p < length (promises (heap w))) by (by eapply lookup_lt_Some).
  destruct (invoke_cases w r) as [(slot & Hc & Hs)|Hfresh].
  - rewrite (step_invoke_join w r slot Hc Hs) in Hstep.
    injection Hstep as <-. split; cbn [heap tasks requestCache promises].
    + exists r0. by apply lookup_app_l_Some.
    + by rewrite lookup_app_l.
    + apply lookup_insert_is_Some'. right. eauto.
    + intros t0 r1 H0. apply lookup_snoc_Some in H0 as [[_ H0]|[_ ?]];
        [eauto|done].
    + intros k' slot' Hk' Hin.
      apply lookup_insert_Some in Hk' as [[<- <-]|[_ Hk']]; [|eauto].
      apply elem_of_app in Hin as [Hin|Hin]; [eauto|].
      apply list_elem_of_singleton in Hin. injection Hin as ->. lia.
  - destruct (step_invoke_fetch w r Hfresh)
      as (st' & Hstep' & _ & Hprom & Hcache).
    rewrite Hstep' in Hstep. injection Hstep as <-.
    assert (Hother : cacheable r = true -> key_of r <> k).
    { intros Hc Heq. rewrite Heq in Hfresh. destruct Hfresh; congruence. }
    split; cbn [heap tasks]; rewrite ?Hprom, ?Hcache.
    + exists r0. by apply lookup_app_l_Some.
    + done.
    + destruct (cacheable r); [|eauto].
      apply lookup_insert_is_Some'. right. eauto.
    + intros t0 r1 H0 Hc1.
      apply lookup_snoc_Some in H0 as [[_ H0]|[_ ?]]; [eauto|].
      simplify_eq. by apply Hother.
    + intros k' slot' Hk' Hin. destruct (cacheable r); [|eauto].
      apply lookup_insert_Some in Hk' as [[<- <-]|[_ Hk']]; [|eauto].
      by apply elem_of_nil in Hin.
Qed.

Lemma stranded_reply k t p w t1 reply w' :
  consistent w -> stranded k t p w ->
  step (Reply t1 reply) w = Some w' -> stranded k t p w'.
Proof.
  intros Hw [[r0 Htask] Hpend [kslot Hk] Hfree Honly] Hstep.
  destruct (tasks w !! t1) as [[r|r q|r c]|] eqn:Ht1;
    try (unfold step in Hstep; rewrite Ht1 in Hstep; discriminate).
  rewrite (step_reply w t1 r reply Ht1) in Hstep. injection Hstep as <-.
  assert (Hne : t1 <> t) by congruence.
  assert (Htasks : forall t0 r1,
            <[t1 := Ended r
                (snd (customRequest_resume (req_type r) (req_url r)
                        (req_body r) (req_model r) reply (heap w)))]>
              (tasks w) !! t0 = Some (Fetching r1) ->
            tasks w !! t0 = Some (Fetching r1)).
  { intros t0 r1 H0.
    by apply list_lookup_insert_Some in H0 as [(_ & ? & _)|[_ H0]]. }
  destruct (resume_heap (req_type r) (req_url r) (req_body r) (req_model r)
              reply (heap w))
    as [Hsame|(pick & arg & slot & Hpick & Hc & Hs & Hheap)].
  - split; cbn [heap tasks]; rewrite ?Hsame; eauto.
    exists r0. by rewrite list_lookup_insert_ne.
  - assert (Hkey : cacheKey (req_type r) (req_url r) <> k)
      by (by apply (Hfree t1 r)).
    split; cbn [heap tasks]; rewrite ?Hheap;
      cbn [requestCache promises with_requestCache];
      rewrite ?notify_all_requestCache.
    + exists r0. by rewrite list_lookup_insert_ne.
    + rewrite notify_all_leaves; [done|].
      intros tuple s Hin Hsettled.
      destruct (slots_hold_waiters w Hw _ _ _ Hs Hin) as [q ->].
      assert (q = p) as ->
        by (destruct Hpick as [-> | ->]; by simplify_eq/=).
      apply Hkey. eauto.
    + rewrite lookup_delete_ne by done. eauto.
    + eauto.
    + intros k' slot' Hk' Hin.
      apply lookup_delete_Some in Hk' as [_ Hk']. eauto.
Qed.

(** Whatever happens later, the stranded task gets nothing. *)
Lemma stranded_forever k t p evs w w' :
  consistent w -> stranded k t p w -> run evs w = Some w' ->
  received w' t = None.
Proof.
  revert w. induction evs as [|ev evs IH]; intros w Hw Hst Hrun.
  - injection Hrun as <-. destruct Hst as [[r Htask] Hpend _ _ _].
    unfold received. by rewrite Htask, Hpend.
  - cbn in Hrun. destruct (step ev w) as [w1|] eqn:Hstep; [|done].
    apply (IH w1); [by eapply consistent_step| |done].
    destruct ev; eauto using stranded_invoke, stranded_reply.
Qed.
End Stranded.

(** * The claims about calls in flight *)

Section InFlight.
Context {js : JsBuiltins} {repo : HttpRepository}.

Lemma run_reachable evs w w' :
  reachable w -> run evs w = Some w' -> reachable w'.
Proof.
  revert w. induction evs as [|ev evs IH]; intros w Hw Hrun.
  - by simplify_eq/=.
  - cbn in Hrun. destruct (step ev w) as [w1|] eqn:Hstep; [|done].
    eauto using reachable_step.
Qed.

(** A call with a method that is not cached always goes to the network,
    whatever else is in flight. *)
Lemma uncacheable_call_fetches (w : World) (r : Request) :
  cacheable r = false ->
  exists w',
    step (Invoke r) w = Some w' /\
    tasks w' = tasks w ++ [Fetching r] /\
    requestCache (heap w') = requestCache (heap w) /\
    network (heap w') =
      network (heap w) ++ [{| fetch_url := req_url r;
                              fetch_method := req_type r;
                              fetch_body := req_body r ≫= JSON_stringify;
                              fetch_headers := setHeaders;
                              fetch_credentials := "include" |}].
Proof.
  intros Hc.
  destruct (step_invoke_fetch w r (or_introl Hc))
    as (st' & Hstep & Hnet & _ & Hcache).
  eexists. split; [exact Hstep|]. rewrite Hc in Hcache. by cbn.
Qed.

(** While a cacheable request is in flight, a call with its method and url
    joins its slot, at the end, and [fetch] is not called. *)
Lemma cacheable_call_joins (w : World) t owner (r : Request) :
  consistent w ->
  tasks w !! t = Some (Fetching owner) ->
  cacheable owner = true ->
  req_type r = req_type owner -> req_url r = req_url owner ->
  exists slot w1,
    requestCache (heap w) !! key_of owner = Some slot /\
    step (Invoke r) w = Some w1 /\
    tasks w1 = tasks w ++ [Joined r (length (promises (heap w)))] /\
    requestCache (heap w1) !! key_of owner =
      Some (slot ++ [waiter (length (promises (heap w)))]) /\
    network (heap w1) = network (heap w).
Proof.
  intros Hw Ht Hc Htype Hurl.
  destruct (owner_has_slot w Hw _ _ Ht Hc) as [slot Hslot].
  assert (Hkey : key_of r = key_of owner)
    by (unfold key_of; by rewrite Htype, Hurl).
  assert (Hcr : cacheable r = true) by (unfold cacheable; by rewrite Htype).
  exists slot. eexists. split; [done|].
  split; [apply (step_invoke_join w r slot Hcr); by rewrite Hkey|].
  cbn. rewrite Hkey. by rewrite lookup_insert_eq.
Qed.
End InFlight.

(** C9. The cache key depends on the method and the url only.  While a
    cacheable request is in flight, a call with the same method and url,
    whatever its body and declared model, gets the same key and joins the
    one slot without a network call; and when the owner's text is coerced by
    the owner's model to [data], the owner and every call waiting on the
    slot end with that same [data]. *)
Theorem joiners_share_the_owners_result {js : JsBuiltins}
    {repo : HttpRepository} (w : World) (t : nat) (owner : Request)
    (response : Response.t) (primitive : string) (data : JsValue) :
  reachable w ->
  tasks w !! t = Some (Fetching owner) ->
  cacheable owner = true ->
  Response.ok response = true ->
  Response.text response = Normal primitive ->
  coerce (req_model owner) primitive = Data data ->
  (forall r : Request,
     req_type r = req_type owner -> req_url r = req_url owner ->
     key_of r = key_of owner /\
     exists slot w1,
       requestCache (heap w) !! key_of owner = Some slot /\
       step (Invoke r) w = Some w1 /\
       tasks w1 = tasks w ++ [Joined r (length (promises (heap w)))] /\
       requestCache (heap w1) !! key_of owner =
         Some (slot ++ [waiter (length (promises (heap w)))]) /\
       network (heap w1) = network (heap w)) /\
  exists w',
    step (Reply t (FetchResolved response)) w = Some w' /\
    received w' t = Some (Normal data) /\
    forall t' r' p,
      tasks w !! t' = Some (Joined r' p) ->
      req_type r' = req_type owner -> req_url r' = req_url owner ->
      promises (heap w) !! p = Some Pending ->
      received w' t' = Some (Normal data).
Proof.
  intros Hreach Ht Hc Hok Htext Hdata.
  pose proof (reachable_consistent w Hreach) as Hw. split.
  - intros r Htype Hurl. split.
    + unfold key_of. by rewrite Htype, Hurl.
    + by eapply cacheable_call_joins.
  - destruct (reply_reaches_joiners w t owner (FetchResolved response)
                (Success data) Hw Ht Hc)
      as (w' & Hstep & Hown & _ & _ & Hjoined).
    { by eapply settles_success. }
    exists w'. eauto.
Qed.

Lemma two_in_flight_reachable :
  reachable (js := sample_builtins) (repo := base "/api") two_in_flight.
Proof.
  apply (run_reachable [Invoke users_as_text; Invoke users_as_flag] boot).
  - apply reachable_boot.
  - reflexivity.
Qed.

Lemma joiners_share_the_owners_result_witness :
  let response := {| Response.status := 200; Response.statusText := "OK";
                     Response.text := Normal "[]" |} in
  (reachable (js := sample_builtins) (repo := base "/api") two_in_flight /\
   tasks two_in_flight !! 0 = Some (Fetching users_as_text) /\
   tasks two_in_flight !! 1 = Some (Joined users_as_flag 0) /\
   cacheable users_as_text = true /\
   Response.ok response = true /\
   Response.text response = Normal "[]" /\
   coerce (js := sample_builtins) (req_model users_as_text) "[]" =
     Data (JString "[]")) /\
  exists w',
    step (js := sample_builtins) (repo := base "/api")
      (Reply 0 (FetchResolved response)) two_in_flight = Some w' /\
    received w' 0 = Some (Normal (JString "[]")) /\
    received w' 1 = Some (Normal (JString "[]")).
Proof.
  intros response.
  split; [by repeat split; try apply two_in_flight_reachable|].
  destruct (joiners_share_the_owners_result (js := sample_builtins)
              (repo := base "/api") two_in_flight 0 users_as_text response
              "[]" (JString "[]") two_in_flight_reachable
              eq_refl eq_refl eq_refl eq_refl eq_refl)
    as [_ (w' & Hstep & Hown & Hjoined)].
  exists w'. split; [exact Hstep|]. split; [exact Hown|].
  exact (Hjoined 1 users_as_flag 0 eq_refl eq_refl eq_refl eq_refl).
Defined.

(** C1, where the code leaves it.  Two calls of GET on one url declare an
    object; the reply is an ok response whose text [JSON.parse] rejects.
    One [fetch] was made, the first caller gets the exception of
    [JSON.parse], and the second caller has got nothing and never will,
    whatever happens later: its tuple stays in the cache, so that the next
    such call joins the stale slot as well, without a [fetch]. *)
Theorem malformed_json_strands_joiners {js : JsBuiltins}
    {repo : HttpRepository} (url : string) (e : JsValue) :
  JSON_parse "{oops" = Throw e ->
  let r := {| req_type := GET; req_url := url; req_body := None;
              req_model := JObject [] |} in
  let response := {| Response.status := 200; Response.statusText := "OK";
                     Response.text := Normal "{oops" |} in
  exists w,
    run [Invoke r; Invoke r; Reply 0 (FetchResolved response)] boot
      = Some w /\
    length (network (heap w)) = 1 /\
    received w 0 = Some (Throw e) /\
    requestCache (heap w) !! key_of r = Some [waiter 0] /\
    (forall evs w', run evs w = Some w' -> received w' 1 = None) /\
    exists w',
      step (Invoke r) w = Some w' /\
      network (heap w') = network (heap w) /\
      received w' 2 = None.
Proof.
  intros Hparse r response.
  destruct (step_invoke_fetch boot r) as (st1 & Hstep1 & Hnet1 & Hp1 & Hc1).
  { right. apply lookup_empty. }
  change (cacheable r) with true in Hc1. cbn in Hnet1, Hp1, Hc1.
  set (w1 := {| heap := st1; tasks := tasks boot ++ [Fetching r] |}) in *.
  assert (Hslot1 : requestCache (heap w1) !! key_of r = Some [])
    by (cbn; rewrite Hc1; apply lookup_insert_eq).
  pose proof (step_invoke_join w1 r [] eq_refl Hslot1) as Hstep2.
  cbn [heap tasks w1] in Hstep2. rewrite Hp1 in Hstep2.
  cbn [length app] in Hstep2.
  set (w2 := {| heap := _; tasks := _ |}) in Hstep2.
  pose proof (step_reply w2 0 r (FetchResolved response) eq_refl) as Hstep3.
  rewrite (resume_coerced _ _ _ _ _ "{oops") in Hstep3 by done.
  replace (coerce (req_model r) "{oops") with (ParseThrew e) in Hstep3
    by (unfold coerce; cbn; by rewrite Hparse).
  cbn [fst snd] in Hstep3.
  set (w3 := {| heap := heap w2; tasks := _ |}) in Hstep3.
  assert (Hrun : run [Invoke r; Invoke r; Reply 0 (FetchResolved response)]
                   boot = Some w3)
    by (unfold run; by rewrite Hstep1, Hstep2, Hstep3).
  assert (Hslot3 : requestCache (heap w3) !! key_of r = Some [waiter 0])
    by (cbn; by rewrite lookup_insert_eq).
  assert (Hw3 : consistent w3)
    by (eapply reachable_consistent, run_reachable;
        [apply reachable_boot | exact Hrun]).
  assert (Hstranded : stranded (key_of r) 1 0 w3).
  { split.
    - by exists r.
    - done.
    - by rewrite Hslot3.
    - intros [|[|t0]] r0 H0; by simplify_eq/=.
    - intros k' slot Hk' _. cbn in Hk'. rewrite Hc1 in Hk'.
      apply lookup_insert_Some in Hk' as [[<- _]|[Hne Hk']]; [done|].
      apply lookup_insert_Some in Hk' as [[<- _]|[_ Hk']]; [done|].
      by rewrite lookup_empty in Hk'. }
  exists w3. split; [exact Hrun|].
  split; [cbn; by rewrite Hnet1|]. split; [done|]. split; [exact Hslot3|].
  split.
  - intros evs w' Hevs. by eapply stranded_forever.
  - eexists.
    split; [by apply (step_invoke_join w3 r [waiter 0] eq_refl)|].
    by cbn.
Qed.

Lemma malformed_json_strands_joiners_witness :
  let r := {| req_type := GET; req_url := "/users"; req_body := None;
              req_model := JObject [] |} in
  let response := {| Response.status := 200; Response.statusText := "OK";
                     Response.text := Normal "{oops" |} in
  sample_parse "{oops" = Throw (JNativeError "SyntaxError" "{oops") /\
  exists w,
    run (js := sample_builtins) (repo := base "/api")
        [Invoke r; Invoke r; Reply 0 (FetchResolved response)] boot
      = Some w /\
    length (network (heap w)) = 1 /\
    received w 0 = Some (Throw (JNativeError "SyntaxError" "{oops")) /\
    requestCache (heap w) !! key_of r = Some [waiter 0] /\
    (forall evs w',
       run (js := sample_builtins) (repo := base "/api") evs w = Some w' ->
       received w' 1 = None) /\
    exists w',
      step (js := sample_builtins) (repo := base "/api") (Invoke r) w
        = Some w' /\
      network (heap w') = network (heap w) /\
      received w' 2 = None.
Proof.
  intros r response. split; [reflexivity|].
  exact (malformed_json_strands_joiners (js := sample_builtins)
           (repo := base "/api") "/users"
           (JNativeError "SyntaxError" "{oops") eq_refl).
Defined.

(** * Further properties of the classifier *)

(** X1. [handleError] returns normally exactly for an ok response, which
    it hands back untouched; for every other response it throws. *)
Theorem handleError_returns_only_ok (repo : HttpRepository)
    (response response' : Response.t) :
  handleError response = Normal response' <->
  Response.ok response = true /\ response' = response.
Proof.
  unfold handleError. destruct (Response.ok response).
  - split; [intros [= <-] | intros [_ ->]]; done.
  - split; [|by intros [? _]].
    by destruct (Response.text response).
Qed.

Lemma startsWith_prefix_app (t r : string) : startsWith t (t +:+ r) = true.
Proof.
  unfold startsWith. induction t as [|c t IH]; [by destruct r|].
  change (String.prefix (String c t) (String c (t +:+ r)) = true).
  cbn. by destruct (ascii_dec c c).
Qed.

Lemma startsWith_longer (t g x : string) :
  startsWith t g = true -> startsWith t (g +:+ x) = true.
Proof.
  intros H. destruct (startsWith_app _ _ H) as [r ->].
  rewrite append_assoc. apply startsWith_prefix_app.
Qed.

Lemma atLineTerminator_shorter (g x : string) :
  atLineTerminator (g +:+ x) = false -> atLineTerminator g = false.
Proof.
  unfold atLineTerminator. intros H.
  destruct (existsb (fun t => startsWith t g) line_terminators) eqn:Hg;
    [|done].
  apply existsb_exists in Hg as (t & Hin & Ht).
  assert (existsb (fun t => startsWith t (g +:+ x)) line_terminators = true);
    [|congruence].
  apply existsb_exists. exists t. eauto using startsWith_longer.
Qed.

Lemma lazy_group_sound s g :
  lazy_group s = Some g ->
  g <> EmptyString /\ one_line g = true /\
  exists rest, s = g +:+ "</u>" +:+ rest.
Proof.
  revert g. induction s as [|c s IH]; intros g H; [done|].
  cbn [lazy_group] in H.
  destruct (atLineTerminator (String c s)) eqn:Hterm; [done|].
  destruct (startsWith "</u>" s) eqn:Hclose.
  - injection H as <-. split; [done|].
    destruct (startsWith_app _ _ Hclose) as [rest ->].
    split; [|by exists rest].
    cbn [one_line]. rewrite andb_true_r. apply negb_true_iff.
    by apply (atLineTerminator_shorter _ ("</u>" +:+ rest)).
  - destruct (lazy_group s) as [g'|] eqn:Hg; [|done].
    injection H as <-.
    destruct (IH g' eq_refl) as (Hne & Hline & rest & ->).
    split; [done|]. split; [|by exists rest].
    cbn [one_line]. rewrite Hline, andb_true_r. apply negb_true_iff.
    by apply (atLineTerminator_shorter _ ("</u>" +:+ rest)).
Qed.

Lemma match_here_sound s g :
  match_here s = Some g ->
  g <> EmptyString /\ one_line g = true /\
  exists rest, s = description_open +:+ g +:+ "</u>" +:+ rest.
Proof.
  unfold match_here. intros H.
  destruct (startsWith description_open s) eqn:Hopen; [|done].
  destruct (startsWith_app _ _ Hopen) as [tail ->].
  rewrite drop_chars_app in H.
  destruct (lazy_group_sound _ _ H) as (Hne & Hline & rest & ->). eauto.
Qed.

Lemma exec_description_sound s g :
  exec_description s = Some g ->
  g <> EmptyString /\ one_line g = true /\
  exists front rest,
    s = front +:+ description_open +:+ g +:+ "</u>" +:+ rest.
Proof.
  induction s as [|c s IH]; intros H.
  - by vm_compute in H.
  - cbn [exec_description] in H.
    destruct (match_here (String c s)) as [g'|] eqn:Hhere.
    + injection H as ->.
      destruct (match_here_sound _ _ Hhere) as (? & ? & rest & Hs).
      split; [done|]. split; [done|]. by exists EmptyString, rest.
    + destruct (IH H) as (? & ? & front & rest & ->).
      split; [done|]. split; [done|]. by exists (String c front), rest.
Qed.

(** A line terminator cannot end in the first character of [</u>]. *)
Lemma atLineTerminator_before_close c g rest :
  atLineTerminator (String c g +:+ "</u>" +:+ rest) =
  atLineTerminator (String c g).
Proof.
  unfold atLineTerminator, line_terminators, startsWith, byte.
  destruct g as [|d [|e [|f g]]];
    cbv [existsb append String.prefix];
    repeat (destruct (ascii_dec _ _); try done).
Qed.

Lemma lazy_group_complete g rest :
  g <> EmptyString -> one_line g = true ->
  is_Some (lazy_group (g +:+ "</u>" +:+ rest)).
Proof.
  induction g as [|c g IH]; intros Hne Hline; [done|].
  cbn [one_line] in Hline. apply andb_true_iff in Hline as [Hc Hline].
  apply negb_true_iff in Hc.
  change (String c g +:+ "</u>" +:+ rest)
    with (String c (g +:+ "</u>" +:+ rest)).
  cbn [lazy_group].
  change (String c (g +:+ "</u>" +:+ rest))
    with (String c g +:+ "</u>" +:+ rest).
  rewrite atLineTerminator_before_close, Hc.
  destruct (startsWith "</u>" (g +:+ "</u>" +:+ rest)) eqn:Hclose;
    [by eauto|].
  destruct g as [|d g].
  - change (EmptyString +:+ "</u>" +:+ rest) with ("</u>" +:+ rest)
      in Hclose.
    by rewrite startsWith_prefix_app in Hclose.
  - destruct (IH ltac:(done) Hline) as [g' ->]. by eauto.
Qed.

Lemma exec_description_complete front g rest :
  g <> EmptyString -> one_line g = true ->
  is_Some (exec_description
             (front +:+ description_open +:+ g +:+ "</u>" +:+ rest)).
Proof.
  intros Hne Hline. induction front as [|c front IH].
  - change (EmptyString +:+ description_open +:+ g +:+ "</u>" +:+ rest)
      with (String "<" ("b>description</b> <u>" +:+ g +:+ "</u>" +:+ rest)).
    cbn [exec_description].
    change (String "<" ("b>description</b> <u>" +:+ g +:+ "</u>" +:+ rest))
      with (description_open +:+ g +:+ "</u>" +:+ rest).
    unfold match_here.
    rewrite startsWith_prefix_app, drop_chars_app.
    destruct (lazy_group_complete g rest Hne Hline) as [g' ->]. eauto.
  - change (String c front +:+ description_open +:+ g +:+ "</u>" +:+ rest)
      with (String c (front +:+ description_open +:+ g +:+ "</u>" +:+ rest)).
    cbn [exec_description]. destruct (match_here _); eauto.
Qed.

(** X2. The description pattern of [handleError] finds a match exactly
    when the body holds the markup [<b>description</b> <u>], a description
    of at least one character without line terminator, and [</u>]; and what
    it captures is such a description, standing in the body between the
    two. *)
Theorem description_pattern_matches (s : string) :
  (is_Some (exec_description s) <->
   exists front g rest,
     g <> EmptyString /\ one_line g = true /\
     s = front +:+ description_open +:+ g +:+ "</u>" +:+ rest) /\
  (forall g, exec_description s = Some g ->
     g <> EmptyString /\ one_line g = true /\
     exists front rest,
       s = front +:+ description_open +:+ g +:+ "</u>" +:+ rest).
Proof.
  split; [split|].
  - intros [g Hg].
    destruct (exec_description_sound s g Hg) as (? & ? & front & rest & ?).
    by exists front, g, rest.
  - intros (front & g & rest & Hne & Hline & ->).
    by apply exec_description_complete.
  - apply exec_description_sound.
Qed.

(** X3. For a failed response with a status other than 401 whose body
    starts with [<], the message is the status, " - " and the captured
    description, or the status text when nothing is captured; the text for
    "no error given" stands in only when nothing is captured and the status
    text is empty. *)
Theorem markup_error_message (repo : HttpRepository)
    (response : Response.t) (text : string) :
  Response.ok response = false ->
  Response.status response <> 401%N ->
  Response.text response = Normal text ->
  startsWith "<" text = true ->
  handleError response =
    Throw (JNormalized
      {| kind := Network;
         message :=
           show (Response.status response) +:+ " - " +:+
           match exec_description text with
           | Some description => description
           | None =>
             match Response.statusText response with
             | EmptyString => no_error_given
             | statusText => statusText
             end
           end;
         status := Some (Response.status response);
         body := Some text |}).
Proof.
  intros Hok Hstatus Htext Hmarkup.
  rewrite (handleError_failed response _ Hok Htext). unfold classify.
  apply N.eqb_neq in Hstatus. rewrite Hstatus, Hmarkup.
  cbn [kind message NetError]. do 3 f_equal.
  destruct (exec_description text) as [g|] eqn:Hg; cbn [default].
  - destruct (exec_description_sound _ _ Hg) as [Hne _].
    by destruct g.
  - by destruct (Response.statusText response).
Qed.

Lemma markup_error_message_witness :
  let response := {| Response.status := 502;
                     Response.statusText := EmptyString;
                     Response.text := Normal "<html>Bad Gateway</html>" |} in
  (Response.ok response = false /\
   Response.status response <> 401%N /\
   Response.text response = Normal "<html>Bad Gateway</html>" /\
   startsWith "<" "<html>Bad Gateway</html>" = true) /\
  handleError (repo := base "/api") response =
    Throw (JNormalized
      {| kind := Network;
         message := "502 - " +:+ no_error_given;
         status := Some 502%N;
         body := Some "<html>Bad Gateway</html>" |}).
Proof.
  intros response. split; [by repeat split|].
  exact (markup_error_message (base "/api") response
           "<html>Bad Gateway</html>" eq_refl ltac:(done) eq_refl eq_refl).
Defined.

(** X4. With the base [parseBackendError], the error thrown for a failed
    response whose body was read always carries the status and the raw body;
    it is a backend error exactly when the status is not 401 and the body
    starts with a brace; and when the status is not 401 and the body does
    not start with [<], its message is the status line. *)
Theorem base_classification (root : string) (response : Response.t)
    (text : string) :
  Response.ok response = false ->
  Response.text response = Normal text ->
  exists e,
    handleError (repo := base root) response = Throw (JNormalized e) /\
    status e = Some (Response.status response) /\
    body e = Some text /\
    (kind e = Backend <->
     Response.status response <> 401%N /\ startsWith "{" text = true) /\
    (Response.status response <> 401%N -> startsWith "<" text = false ->
     message e = status_line response).
Proof.
  intros Hok Htext.
  rewrite (handleError_failed response _ Hok Htext).
  eexists. split; [reflexivity|]. cbn [status body kind message].
  split; [done|]. split; [done|]. unfold classify.
  destruct (N.eqb_spec (Response.status response) 401) as [H401|H401].
  { cbn. split; [|done]. split; [done|]. by intros [? _]. }
  destruct (startsWith "<" text) eqn:Hmarkup.
  { cbn. split; [|done]. split; [done|]. intros [_ Hbrace].
    destruct (startsWith_app _ _ Hmarkup) as [r ->]. by destruct r. }
  destruct (startsWith "{" text) eqn:Hbrace; cbn.
  - split; [|done]. by split.
  - split; [|done]. split; [done|]. by intros [_ ?].
Qed.

Lemma base_classification_witness :
  let response := {| Response.status := 503;
                     Response.statusText := "Service Unavailable";
                     Response.text := Normal "try later" |} in
  (Response.ok response = false /\
   Response.text response = Normal "try later") /\
  exists e,
    handleError (repo := base "/api") response = Throw (JNormalized e) /\
    status e = Some 503%N /\
    body e = Some "try later" /\
    (kind e = Backend <->
     Response.status response <> 401%N /\ startsWith "{" "try later" = true) /\
    (Response.status response <> 401%N -> startsWith "<" "try later" = false ->
     message e = status_line response).
Proof.
  intros response. split; [by split|].
  exact (base_classification "/api" response "try later" eq_refl eq_refl).
Defined.

(** * Further properties of [customRequest] *)

(** X5. Two calls have the same cache key exactly when they have the same
    method and the same url: requests that differ in either never meet in
    one slot. *)
Theorem same_key_same_request (type1 type2 : Methods) (url1 url2 : string) :
  cacheKey type1 url1 = cacheKey type2 url2 <->
  type1 = type2 /\ url1 = url2.
Proof.
  split; [|by intros [-> ->]].
  unfold cacheKey. intros H.
  destruct type1, type2; cbv in H; by simplify_eq.
Qed.

Section Untouched.
Context {js : JsBuiltins} {repo : HttpRepository}.

Lemma enter_other_keys type url body modelConstructor st k :
  k <> cacheKey type url ->
  requestCache (fst (customRequest_enter type url body modelConstructor st))
    !! k = requestCache st !! k.
Proof.
  intros Hk. unfold customRequest_enter.
  destruct (isCacheable type &&
            bool_decide (is_Some (requestCache st !! cacheKey type url))).
  - cbn. by rewrite lookup_alter_ne.
  - destruct (isCacheable type); cbn; [by rewrite lookup_insert_ne | done].
Qed.

Lemma resume_other_keys type url body modelConstructor reply st k :
  k <> cacheKey type url ->
  requestCache
    (fst (customRequest_resume type url body modelConstructor reply st))
    !! k = requestCache st !! k.
Proof.
  intros Hk.
  destruct (resume_heap type url body modelConstructor reply st)
    as [->|(pick & arg & slot & _ & _ & _ & ->)]; [done|].
  cbn. by rewrite lookup_delete_ne, notify_all_requestCache.
Qed.

Lemma resume_network type url body modelConstructor reply st :
  network (fst (customRequest_resume type url body modelConstructor reply st))
  = network st.
Proof.
  destruct (resume_heap type url body modelConstructor reply st)
    as [->|(pick & arg & slot & _ & _ & _ & ->)]; [done|].
  cbn. apply notify_all_network.
Qed.
End Untouched.



(** X7. Neither piece of a call touches the slot of any key but its own,
    and the second piece never calls [fetch]: a reply settles its own
    request only and is never followed by a retry. *)
Theorem call_keeps_to_its_key {js : JsBuiltins} {repo : HttpRepository}
    (type : Methods) (url : string) (body : option JsValue)
    (modelConstructor : JsValue) (reply : FetchOutcome) (st : State)
    (k : string) :
  k <> cacheKey type url ->
  requestCache (fst (customRequest_enter type url body modelConstructor st))
    !! k = requestCache st !! k /\
  requestCache
    (fst (customRequest_resume type url body modelConstructor reply st))
    !! k = requestCache st !! k /\
  network (fst (customRequest_resume type url body modelConstructor reply st))
    = network st.
Proof.
  intros Hk. split; [by apply enter_other_keys|].
  split; [by apply resume_other_keys | apply resume_network].
Qed.

Lemma call_keeps_to_its_key_witness :
  let st := {| requestCache := {[ "GET /users" := [waiter 0] ]};
               promises := [Pending];
               network := []; console := []; calls := [] |} in
  let reply := FetchRejected (JNativeError "TypeError" "Failed to fetch") in
  "GET /users" <> cacheKey HEAD "/users" /\
  requestCache
    (fst (customRequest_enter (js := sample_builtins) (repo := base "/api")
            HEAD "/users" None JUndefined st))
    !! "GET /users" = requestCache st !! "GET /users" /\
  requestCache
    (fst (customRequest_resume (js := sample_builtins) (repo := base "/api")
            HEAD "/users" None JUndefined reply st))
    !! "GET /users" = requestCache st !! "GET /users" /\
  network
    (fst (customRequest_resume (js := sample_builtins) (repo := base "/api")
            HEAD "/users" None JUndefined reply st))
    = network st.
Proof.
  intros st reply.
  assert (H : "GET /users" <> cacheKey HEAD "/users") by done.
  split; [exact H|].
  exact (call_keeps_to_its_key (js := sample_builtins) (repo := base "/api")
           HEAD "/users" None JUndefined reply st "GET /users" H).
Defined.

(** * Further properties of the calls in flight *)

Section Histories.
Context {js : JsBuiltins} {repo : HttpRepository}.



Lemma step_received w ev w' t c :
  step ev w = Some w' -> received w t = Some c -> received w' t = Some c.
Proof.
  intros Hstep Hrec. unfold received in *.
  destruct (tasks w !! t) as [task|] eqn:Htask; [|done].
  destruct ev as [r|t1 reply].
  - assert (Htask' : tasks w' !! t = Some task /\
              forall p s, promises (heap w) !! p = Some s ->
                          promises (heap w') !! p = Some s).
    { destruct (invoke_cases w r) as [(slot & Hc & Hs)|Hfresh].
      - rewrite (step_invoke_join w r slot Hc Hs) in Hstep.
        injection Hstep as <-. cbn.
        split; [by apply lookup_app_l_Some|].
        intros p s. apply lookup_app_l_Some.
      - destruct (step_invoke_fetch w r Hfresh)
          as (st' & Hstep' & _ & Hp & _).
        rewrite Hstep' in Hstep. injection Hstep as <-. cbn.
        split; [by apply lookup_app_l_Some|]. by rewrite Hp. }
    destruct Htask' as [-> Hkeep].
    destruct task as [r0|r0 p|r0 c0]; [done| |done].
    destruct (promises (heap w) !! p) as [[|v|e]|] eqn:Hp; [done| | |done];
      by rewrite (Hkeep _ _ Hp).
  - destruct (tasks w !! t1) as [[r|r p|r c1]|] eqn:Ht1;
      try (unfold step in Hstep; rewrite Ht1 in Hstep; discriminate).
    rewrite (step_reply w t1 r reply Ht1) in Hstep. injection Hstep as <-.
    cbn [tasks heap].
    rewrite list_lookup_insert_ne by (intros ->; by simplify_eq).
    rewrite Htask.
    destruct task as [r0|r0 p|r0 c0]; [done| |done].
    destruct (resume_heap (req_type r) (req_url r) (req_body r)
                (req_model r) reply (heap w))
      as [->|(pick & arg & slot & _ & _ & _ & ->)]; [done|].
    cbn [promises with_requestCache].
    destruct (promises (heap w) !! p) as [[|v|e]|] eqn:Hp; [done| | |done];
      by rewrite (notify_all_settled_stays _ _ _ _ _ _ Hp).
Qed.

Lemma enter_console type url body modelConstructor st :
  console (fst (customRequest_enter type url body modelConstructor st))
  = console st.
Proof.
  unfold customRequest_enter.
  destruct (isCacheable type &&
            bool_decide (is_Some (requestCache st !! cacheKey type url)));
    [done|]. by destruct (isCacheable type).
Qed.

Lemma waiters_throw_nothing pick arg (slot : list (Fn * Fn)) :
  pick = fst \/ pick = snd ->
  (forall tuple, tuple ∈ slot -> exists q, tuple = waiter q) ->
  omap (fun tuple => thrown_by (pick tuple) arg) slot = [].
Proof.
  intros Hpick. induction slot as [|t slot IH]; intros Hslot; [done|].
  destruct (Hslot t) as [q ->]; [left|]. cbn.
  replace (thrown_by (pick (waiter q)) arg) with (@None JsValue)
    by (by destruct Hpick as [-> | ->]).
  apply IH. intros tuple Hin. apply Hslot. by right.
Qed.

Lemma step_console w ev w' :
  consistent w -> step ev w = Some w' ->
  console (heap w') = console (heap w).
Proof.
  intros Hw Hstep. destruct ev as [r|t reply].
  - unfold step in Hstep.
    pose proof (enter_console (req_type r) (req_url r) (req_body r)
                  (req_model r) (heap w)) as Hc.
    destruct (customRequest_enter _ _ _ _ (heap w)) as [st s].
    by injection Hstep as <-.
  - destruct (tasks w !! t) as [[r|r p|r c]|] eqn:Ht;
      try (unfold step in Hstep; rewrite Ht in Hstep; discriminate).
    rewrite (step_reply w t r reply Ht) in Hstep. injection Hstep as <-.
    cbn [heap].
    destruct (resume_heap (req_type r) (req_url r) (req_body r)
                (req_model r) reply (heap w))
      as [->|(pick & arg & slot & Hpick & _ & Hs & ->)]; [done|].
    cbn [console with_requestCache].
    rewrite notify_all_console, waiters_throw_nothing, app_nil_r;
      eauto using slots_hold_waiters.
Qed.
End Histories.

Lemma two_answered_reachable :
  reachable (js := sample_builtins) (repo := base "/api") two_answered.
Proof.
  apply (run_reachable
           [Reply 0 (FetchResolved {| Response.status := 200;
                                      Response.statusText := "OK";
                                      Response.text := Normal "[]" |})]
           two_in_flight);
    [apply two_in_flight_reachable | reflexivity].
Qed.



(** X9. What a caller has received stays: once a call has ended with a
    value or an error, no later call or reply changes that. *)
Theorem result_is_final {js : JsBuiltins} {repo : HttpRepository}
    (evs : list Event) (w w' : World) (t : nat) (c : Completion JsValue) :
  received w t = Some c ->
  run evs w = Some w' ->
  received w' t = Some c.
Proof.
  revert w. induction evs as [|ev evs IH]; intros w Hrec Hrun.
  - by injection Hrun as <-.
  - cbn in Hrun. destruct (step ev w) as [w1|] eqn:Hstep; [|done].
    eauto using step_received.
Qed.

Lemma result_is_final_witness :
  (received two_answered 1 = Some (Normal (JString "[]")) /\
   run (js := sample_builtins) (repo := base "/api")
     [Invoke users_as_text] two_answered = Some two_answered_one_more) /\
  received two_answered_one_more 1 = Some (Normal (JString "[]")).
Proof.
  split; [by split|].
  exact (result_is_final (js := sample_builtins) (repo := base "/api")
           [Invoke users_as_text] two_answered two_answered_one_more 1
           (Normal (JString "[]")) eq_refl eq_refl).
Defined.

(** X10. Nothing is ever printed with [console.error]: the functions that
    [customRequest] caches are the settling functions of its own promises,
    and those do not throw. *)
Theorem console_stays_silent {js : JsBuiltins} {repo : HttpRepository}
    (w : World) :
  reachable w -> console (heap w) = [].
Proof.
  induction 1 as [|w ev w' Hw IH Hstep]; [done|].
  rewrite (step_console w ev w'); eauto using reachable_consistent.
Qed.

Lemma console_stays_silent_witness :
  reachable (js := sample_builtins) (repo := base "/api") two_answered /\
  console (heap two_answered) = [].
Proof.
  split; [apply two_answered_reachable|].
  exact (console_stays_silent (js := sample_builtins) (repo := base "/api")
           two_answered two_answered_reachable).
Defined.

(** X11. However a cacheable request settles, by a value, a classified
    HTTP error, a transport failure or the wrong-type error, its caller and
    every call still waiting on its key end the same way, and the key
    leaves the cache. *)
Theorem settlement_reaches_every_joiner {js : JsBuiltins}
    {repo : HttpRepository} (w : World) (t : nat) (r : Request)
    (reply : FetchOutcome) (s : Settlement) :
  reachable w ->
  tasks w !! t = Some (Fetching r) ->
  cacheable r = true ->
  settles (req_model r) reply s ->
  exists w',
    step (Reply t reply) w = Some w' /\
    received w' t = Some (completion_of s) /\
    requestCache (heap w') !! key_of r = None /\
    forall t' r' p,
      tasks w !! t' = Some (Joined r' p) ->
      req_type r' = req_type r -> req_url r' = req_url r ->
      promises (heap w) !! p = Some Pending ->
      received w' t' = Some (completion_of s).
Proof.
  intros Hreach Ht Hc Hs.
  destruct (reply_reaches_joiners w t r reply s
              (reachable_consistent w Hreach) Ht Hc Hs)
    as (w' & Hstep & Hown & Hgone & _ & Hjoined).
  exists w'. eauto.
Qed.

Lemma settlement_reaches_every_joiner_witness :
  let response := {| Response.status := 500;
                     Response.statusText := "Internal Server Error";
                     Response.text := Normal boom_payload |} in
  let e := JNormalized {| kind := Backend;
                          message := "500 - Internal Server Error";
                          status := Some 500%N;
                          body := Some boom_payload |} in
  (reachable (js := sample_builtins) (repo := base "/api") two_in_flight /\
   tasks two_in_flight !! 0 = Some (Fetching users_as_text) /\
   cacheable users_as_text = true /\
   settles (js := sample_builtins) (repo := base "/api")
     (req_model users_as_text) (FetchResolved response) (HttpError e)) /\
  exists w',
    step (js := sample_builtins) (repo := base "/api")
      (Reply 0 (FetchResolved response)) two_in_flight = Some w' /\
    received w' 0 = Some (Throw e) /\
    received w' 1 = Some (Throw e).
Proof.
  intros response e.
  assert (Hs : settles (js := sample_builtins) (repo := base "/api")
                 (req_model users_as_text) (FetchResolved response)
                 (HttpError e))
    by (by apply (settles_http_error _ response boom_payload)).
  split; [by repeat split; try apply two_in_flight_reachable|].
  destruct (settlement_reaches_every_joiner (js := sample_builtins)
              (repo := base "/api") two_in_flight 0 users_as_text
              (FetchResolved response) (HttpError e)
              two_in_flight_reachable eq_refl eq_refl Hs)
    as (w' & Hstep & Hown & _ & Hjoined).
  exists w'. split; [exact Hstep|]. split; [exact Hown|].
  exact (Hjoined 1 users_as_flag 0 eq_refl eq_refl eq_refl eq_refl).
Defined.

(** X12. At any time at most one call is on the network for a cacheable
    method and url, its key is in the cache for as long as it is, and every
    tuple in the cache is the pair of settling functions of one promise. *)
Theorem one_fetch_in_flight {js : JsBuiltins} {repo : HttpRepository}
    (w : World) (t1 t2 : nat) (r1 r2 : Request) :
  reachable w ->
  tasks w !! t1 = Some (Fetching r1) ->
  tasks w !! t2 = Some (Fetching r2) ->
  cacheable r1 = true ->
  req_type r1 = req_type r2 -> req_url r1 = req_url r2 ->
  t1 = t2 /\
  is_Some (requestCache (heap w) !! key_of r1) /\
  forall k slot tuple,
    requestCache (heap w) !! k = Some slot -> tuple ∈ slot ->
    exists p, tuple = waiter p.
Proof.
  intros Hreach H1 H2 Hc Htype Hurl.
  pose proof (reachable_consistent w Hreach) as Hw.
  split; [|split].
  - apply (owner_unique w Hw t1 t2 r1 r2 H1 H2 Hc).
    unfold key_of. by rewrite Htype, Hurl.
  - by apply (owner_has_slot w Hw t1).
  - apply (slots_hold_waiters w Hw).
Qed.

Lemma one_fetch_in_flight_witness :
  (reachable (js := sample_builtins) (repo := base "/api") two_in_flight /\
   tasks two_in_flight !! 0 = Some (Fetching users_as_text) /\
   cacheable users_as_text = true) /\
  0 = 0 /\
  is_Some (requestCache (heap two_in_flight) !! key_of users_as_text) /\
  forall k slot tuple,
    requestCache (heap two_in_flight) !! k = Some slot -> tuple ∈ slot ->
    exists p, tuple = waiter p.
Proof.
  split; [by repeat split; try apply two_in_flight_reachable|].
  exact (one_fetch_in_flight (js := sample_builtins) (repo := base "/api")
           two_in_flight 0 0 users_as_text users_as_text
           two_in_flight_reachable eq_refl eq_refl eq_refl eq_refl eq_refl).
Defined.

(** * The typed wrappers *)



Section Wrappers.
Context {js : JsBuiltins} {repo : HttpRepository}.

End Wrappers.





(** X15. [customRequestAsArrayT] on an ok response whose text starts with
    a brace: the text is parsed all the same, the waiting calls are resolved
    with the parsed value, and when that value is no array the wrapper ends
    with the TypeError of calling [map] on it, [fromJSON] not being
    called. *)
Theorem customRequestAsArrayT_on_object {js : JsBuiltins}
    {repo : HttpRepository} (fromJSON : JsValue -> Completion JsValue)
    (map_is_not_a_function : JsValue -> JsValue) (type : Methods)
    (url : string) (body : option JsValue) (response : Response.t)
    (primitive : string) (model : JsValue) (st : State) :
  Response.ok response = true ->
  Response.text response = Normal primitive ->
  startsWith "{" primitive = true ->
  JSON_parse primitive = Normal model ->
  isArray model = false ->
  customRequest_resume type url body customRequestAsArrayT_model
      (FetchResolved response) st =
    (fst (resolveAll model (isCacheable type) (cacheKey type url) st),
     Normal model) /\
  customRequestAsArrayT_return fromJSON map_is_not_a_function (Normal model)
    = Throw (map_is_not_a_function model).
Proof.
  intros Hok Htext Hbrace Hparse Harray. split.
  - rewrite (resume_coerced _ _ _ _ _ primitive) by (by rewrite try_block_ok).
    unfold customRequestAsArrayT_model.
    by rewrite (array_model_object_text _ _ Hbrace), Hparse.
  - by destruct model.
Qed.

Lemma customRequestAsArrayT_on_object_witness :
  let response := {| Response.status := 200; Response.statusText := "OK";
                     Response.text := Normal "{}" |} in
  let type_error := JNativeError "TypeError" "models.map is not a function" in
  (Response.ok response = true /\
   Response.text response = Normal "{}" /\
   startsWith "{" "{}" = true /\
   sample_parse "{}" = Normal (JObject []) /\
   isArray (JObject []) = false) /\
  customRequest_resume (js := sample_builtins) (repo := base "/api")
      GET "/users" None customRequestAsArrayT_model
      (FetchResolved response) empty_state =
    (fst (resolveAll (JObject []) (isCacheable GET) (cacheKey GET "/users")
            empty_state),
     Normal (JObject [])) /\
  customRequestAsArrayT_return (fun model => Normal model)
      (fun _ => type_error) (Normal (JObject []))
    = Throw type_error.
Proof.
  intros response type_error. split; [by repeat split|].
  exact (customRequestAsArrayT_on_object (js := sample_builtins)
           (repo := base "/api") (fun model => Normal model)
           (fun _ => type_error) GET "/users" None response "{}"
           (JObject []) empty_state eq_refl eq_refl eq_refl eq_refl eq_refl).
Defined.

(** * The logger service *)

Section LoggerFacts.
Context {levels : LogLevels} {js : JsBuiltins} {host : Host}.

Lemma processError_without_error service message level page :
  processError service message None level page =
    (page, Throw no_properties_of_undefined).
Proof. reflexivity. Qed.

Lemma set_property_elem key value props k v :
  (k, v) ∈ set_property key value props ->
  (k, v) = (key, value) \/ (k, v) ∈ props.
Proof.
  induction props as [|[k0 v0] props IH]; cbn; intros H.
  - apply list_elem_of_singleton in H. by left.
  - case_bool_decide as Hk.
    + apply elem_of_cons in H as [H|H]; [|right; by right].
      left. by simplify_eq.
    + apply elem_of_cons in H as [->|H]; [right; by left|].
      destruct (IH H); [by left | right; by right].
Qed.

Lemma set_property_keys key value props k :
  k ∈ (set_property key value props).*1 <-> k = key \/ k ∈ props.*1.
Proof.
  induction props as [|[k0 v0] props IH]; cbn.
  - rewrite list_elem_of_singleton, elem_of_nil. tauto.
  - case_bool_decide as Hk; cbn; rewrite !elem_of_cons.
    + subst k0. tauto.
    + rewrite IH. tauto.
Qed.

Lemma copied_elem (source acc : list (string * JsValue)) k v :
  (k, v) ∈ fold_left (fun props kv => set_property kv.1 kv.2 props)
                     source acc ->
  (k, v) ∈ source \/ (k, v) ∈ acc.
Proof.
  revert acc. induction source as [|[k0 v0] source IH]; intros acc H.
  - by right.
  - cbn in H. destruct (IH _ H) as [Hin|Hin]; [left; by right|].
    destruct (set_property_elem _ _ _ _ _ Hin) as [->|?];
      [left; by left | by right].
Qed.

Lemma copied_keys (source acc : list (string * JsValue)) k :
  k ∈ (fold_left (fun props kv => set_property kv.1 kv.2 props)
                 source acc).*1 <->
  k ∈ source.*1 \/ k ∈ acc.*1.
Proof.
  revert acc. induction source as [|[k0 v0] source IH]; intros acc; cbn.
  - rewrite elem_of_nil. tauto.
  - rewrite IH, set_property_keys, elem_of_cons. tauto.
Qed.

Lemma delete_property_keys key (props : list (string * JsValue)) k :
  k ∈ (delete_property key props).*1 <-> k ∈ props.*1 /\ k <> key.
Proof.
  unfold delete_property. rewrite !list_elem_of_fmap. split.
  - intros ([k0 v0] & -> & Hin). apply list_elem_of_filter in Hin as [? ?].
    split; [|done]. by exists (k0, v0).
  - intros [([k0 v0] & -> & Hin) Hne]. exists (k0, v0). split; [done|].
    by apply list_elem_of_filter.
Qed.
End LoggerFacts.

(** X16. [log] and [warning] never send a client error and never
    redirect.  Below or at the level of the service they print their message
    and then end with the TypeError of
    [Object.getOwnPropertyNames(undefined)], thrown on line 49 before
    anything is sent; above it they do nothing.  So they return normally
    exactly when the call is above the level. *)
Theorem log_and_warning_never_report {levels : LogLevels} {js : JsBuiltins}
    {host : Host} (service : LoggerService) (message : string)
    (level : option N) (page : Page) :
  (log service message level page =
     if (default INFO level <=? logLevel service)%N
     then (print (ConsoleLog message) page, Throw no_properties_of_undefined)
     else (page, Normal tt)) /\
  (warning service message level page =
     if (default WARN level <=? logLevel service)%N
     then (print (ConsoleWarn message) page, Throw no_properties_of_undefined)
     else (page, Normal tt)) /\
  sent (fst (log service message level page)) = sent page /\
  sent (fst (warning service message level page)) = sent page /\
  location_href (fst (log service message level page)) = location_href page /\
  location_href (fst (warning service message level page))
    = location_href page /\
  (snd (log service message level page) = Normal tt <->
   (logLevel service < default INFO level)%N) /\
  (snd (warning service message level page) = Normal tt <->
   (logLevel service < default WARN level)%N).
Proof.
  unfold log, warning.
  destruct (N.leb_spec (default INFO level) (logLevel service)) as [Hi|Hi];
    destruct (N.leb_spec (default WARN level) (logLevel service)) as [Hw|Hw];
    rewrite ?processError_without_error; cbn [fst snd];
    repeat split; try done; try lia.
Qed.

(** X17. [error] at a level the service lets through, given a [NetError]
    with status 401 while a login url is set and not empty: the message is
    printed with [console.error], [window.location.href] becomes the login
    url, and no client error is sent. *)
Theorem unauthorized_goes_to_login {levels : LogLevels} {js : JsBuiltins}
    {host : Host} (service : LoggerService) (message : string)
    (e : NormalizedError) (level : N) (c : ascii) (url : string)
    (page : Page) :
  (level <= logLevel service)%N ->
  kind e = Network ->
  status e = Some 401%N ->
  loginUrl service = Some (String c url) ->
  error service message (Some (OfClass e)) (Some level) page =
    ({| printed := printed page ++
                   [ConsoleError message (Some (OfClass e))];
        location_href := String c url;
        sent := sent page |},
     Normal tt).
Proof.
  intros Hlevel Hkind Hstatus Hlogin. apply N.leb_le in Hlevel.
  unfold error, processError, unauthorized. cbn [default from_option id].
  rewrite Hlevel, Hlogin, Hkind, Hstatus.
  by rewrite bool_decide_eq_true_2.
Qed.

Lemma unauthorized_goes_to_login_witness :
  let service := {| logLevel := 0; loginUrl := Some "/login" |} in
  let e := {| kind := Network; message := "Authorization exception";
              status := Some 401%N; body := Some EmptyString |} in
  ((0 <= logLevel service)%N /\ kind e = Network /\
   status e = Some 401%N /\ loginUrl service = Some "/login") /\
  error (levels := sample_levels) (js := sample_builtins)
      (host := sample_host) service "load users" (Some (OfClass e))
      (Some 0%N) blank_page =
    ({| printed := [ConsoleError "load users" (Some (OfClass e))];
        location_href := "/login";
        sent := [] |},
     Normal tt).
Proof.
  intros service e. split; [by repeat split|].
  exact (unauthorized_goes_to_login (levels := sample_levels)
           (js := sample_builtins) (host := sample_host) service
           "load users" e 0 "/" "login" blank_page
           ltac:(done) eq_refl eq_refl eq_refl).
Defined.




(** X20. The copy of [navigator] that is serialised into a client error
    has a property exactly for every enumerable property of [navigator]
    other than [plugins] and [mimeTypes], and every value in it is a value
    that [navigator] has under that name. *)
Theorem browser_copy_leaves_plugins_out {host : Host} (k : string) :
  (k ∈ varNavigator.*1 <->
   k ∈ navigator.*1 /\ k <> "plugins" /\ k <> "mimeTypes") /\
  (forall v, (k, v) ∈ varNavigator -> (k, v) ∈ navigator).
Proof.
  unfold varNavigator. split.
  - rewrite !delete_property_keys, copied_keys. cbn. rewrite elem_of_nil.
    tauto.
  - intros v Hin. unfold delete_property in Hin.
    apply list_elem_of_filter in Hin as [_ Hin].
    apply list_elem_of_filter in Hin as [_ Hin].
    destruct (copied_elem _ _ _ _ Hin) as [?|Hnil]; [done|].
    by apply elem_of_nil in Hnil.
Qed.

(** * The cache holds the waiting calls and nothing else *)

Section Hygiene.
Context {js : JsBuiltins} {repo : HttpRepository}.

Lemma waiter_inj p q : waiter p = waiter q -> p = q.
Proof. by intros [= ->]. Qed.

Lemma hygienic_boot : hygienic boot.
Proof.
  split; cbn; intros *; rewrite ?lookup_empty, ?lookup_nil; done.
Qed.

Lemma hygienic_invoke w r w' :
  consistent w -> hygienic w -> step (Invoke r) w = Some w' -> hygienic w'.
Proof.
  intros Hw [Hjoined Hdistinct Hpending Hnodup] Hstep.
  destruct (invoke_cases w r) as [(slot & Hc & Hs)|Hfresh].
  - rewrite (step_invoke_join w r slot Hc Hs) in Hstep.
    injection Hstep as <-.
    assert (Hfresh : forall k slot' p,
              requestCache (heap w) !! k = Some slot' -> waiter p ∈ slot' ->
              p < length (promises (heap w))).
    { intros k slot' p Hk Hin.
      destruct (Hjoined _ _ _ Hk Hin) as (t & r0 & Ht & _).
      by eapply joined_allocated. }
    split; cbn [heap tasks requestCache promises].
    + intros k slot' p Hk Hin.
      apply lookup_insert_Some in Hk as [[<- <-]|[_ Hk]].
      * apply elem_of_app in Hin as [Hin|Hin].
        -- destruct (Hjoined _ _ _ Hs Hin) as (t & r0 & Ht & Hkey).
           exists t, r0. split; [by apply lookup_app_l_Some | done].
        -- apply list_elem_of_singleton, waiter_inj in Hin as ->.
           exists (length (tasks w)), r. split; [|done].
           by rewrite lookup_app_r, Nat.sub_diag.
      * destruct (Hjoined _ _ _ Hk Hin) as (t & r0 & Ht & Hkey).
        exists t, r0. split; [by apply lookup_app_l_Some | done].
    + intros t1 t2 r1 r2 p H1 H2.
      apply lookup_snoc_Some in H1 as [[? H1]|[-> H1]];
        apply lookup_snoc_Some in H2 as [[? H2]|[-> H2]];
        [eauto | | | done].
      * simplify_eq. apply (joined_allocated w Hw) in H1. lia.
      * simplify_eq. apply (joined_allocated w Hw) in H2. lia.
    + intros k slot' p Hk Hin.
      apply lookup_insert_Some in Hk as [[<- <-]|[_ Hk]].
      * apply elem_of_app in Hin as [Hin|Hin].
        -- apply lookup_app_l_Some. eauto.
        -- apply list_elem_of_singleton, waiter_inj in Hin as ->.
           by rewrite lookup_app_r, Nat.sub_diag.
      * apply lookup_app_l_Some. eauto.
    + intros k slot' Hk.
      apply lookup_insert_Some in Hk as [[<- <-]|[_ Hk]]; [|eauto].
      apply NoDup_app. split; [eauto|]. split; [|apply NoDup_singleton].
      intros tuple Hin Hnew. apply list_elem_of_singleton in Hnew as ->.
      apply (Hfresh _ _ _ Hs) in Hin. lia.
  - destruct (step_invoke_fetch w r Hfresh)
      as (st' & Hstep' & _ & Hp & Hcache).
    rewrite Hstep' in Hstep. injection Hstep as <-.
    assert (Hold : forall k slot' tuple,
              requestCache st' !! k = Some slot' -> tuple ∈ slot' ->
              requestCache (heap w) !! k = Some slot').
    { intros k slot' tuple Hk Hin. rewrite Hcache in Hk.
      destruct (cacheable r); [|done].
      apply lookup_insert_Some in Hk as [[<- <-]|[_ Hk]]; [|done].
      by apply elem_of_nil in Hin. }
    split; cbn [heap tasks]; rewrite ?Hp.
    + intros k slot' p Hk Hin.
      destruct (Hjoined _ _ _ (Hold _ _ _ Hk Hin) Hin)
        as (t & r0 & Ht & Hkey).
      exists t, r0. split; [by apply lookup_app_l_Some | done].
    + intros t1 t2 r1 r2 p H1 H2.
      apply lookup_snoc_Some in H1 as [[? H1]|[-> H1]]; [|done].
      apply lookup_snoc_Some in H2 as [[? H2]|[-> H2]]; [eauto|done].
    + intros k slot' p Hk Hin. eauto.
    + intros k slot' Hk. rewrite Hcache in Hk.
      destruct (cacheable r); [|eauto].
      apply lookup_insert_Some in Hk as [[<- <-]|[_ Hk]];
        [apply NoDup_nil_2 | eauto].
Qed.

Lemma hygienic_reply w t reply w' :
  consistent w -> hygienic w -> step (Reply t reply) w = Some w' ->
  hygienic w'.
Proof.
  intros Hw [Hjoined Hdistinct Hpending Hnodup] Hstep.
  destruct (tasks w !! t) as [[r|r p|r c]|] eqn:Ht;
    try (unfold step in Hstep; rewrite Ht in Hstep; discriminate).
  rewrite (step_reply w t r reply Ht) in Hstep. injection Hstep as <-.
  assert (Hkeep : forall t0 r0 p,
            tasks w !! t0 = Some (Joined r0 p) ->
            <[t := Ended r
                (snd (customRequest_resume (req_type r) (req_url r)
                        (req_body r) (req_model r) reply (heap w)))]>
              (tasks w) !! t0 = Some (Joined r0 p)).
  { intros t0 r0 p H0. rewrite list_lookup_insert_ne; [done|].
    intros ->. by simplify_eq. }
  assert (Hback : forall t0 r0 p,
            <[t := Ended r
                (snd (customRequest_resume (req_type r) (req_url r)
                        (req_body r) (req_model r) reply (heap w)))]>
              (tasks w) !! t0 = Some (Joined r0 p) ->
            tasks w !! t0 = Some (Joined r0 p)).
  { intros t0 r0 p H0.
    by apply list_lookup_insert_Some in H0 as [(_ & ? & _)|[_ H0]]. }
  destruct (resume_heap (req_type r) (req_url r) (req_body r) (req_model r)
              reply (heap w))
    as [Hsame|(pick & arg & slot & Hpick & Hc & Hs & Hheap)].
  - split; cbn [heap tasks]; rewrite ?Hsame; eauto.
    intros k slot' p Hk Hin.
    destruct (Hjoined _ _ _ Hk Hin) as (t0 & r0 & H0 & Hkey). eauto.
  - split; cbn [heap tasks]; rewrite ?Hheap;
      cbn [requestCache promises with_requestCache];
      rewrite ?notify_all_requestCache.
    + intros k slot' p Hk Hin.
      apply lookup_delete_Some in Hk as [_ Hk].
      destruct (Hjoined _ _ _ Hk Hin) as (t0 & r0 & H0 & Hkey). eauto.
    + eauto.
    + intros k slot' p Hk Hin.
      apply lookup_delete_Some in Hk as [Hne Hk].
      rewrite notify_all_leaves; [eauto|].
      intros tuple s Htuple Hsettled.
      destruct (slots_hold_waiters w Hw _ _ _ Hs Htuple) as [q ->].
      assert (q = p) as ->
        by (destruct Hpick as [-> | ->]; by simplify_eq/=).
      destruct (Hjoined _ _ _ Hs Htuple) as (t1 & r1 & H1 & Hkey1).
      destruct (Hjoined _ _ _ Hk Hin) as (t2 & r2 & H2 & Hkey2).
      pose proof (Hdistinct _ _ _ _ _ H1 H2) as ->. by simplify_eq.
    + intros k slot' Hk. apply lookup_delete_Some in Hk as [_ Hk]. eauto.
Qed.

Lemma reachable_hygienic w : reachable w -> hygienic w.
Proof.
  induction 1 as [|w ev w' Hreach IH Hstep]; [apply hygienic_boot|].
  pose proof (reachable_consistent w Hreach) as Hw.
  destruct ev; eauto using hygienic_invoke, hygienic_reply.
Qed.
End Hygiene.

(** X21. At any time a slot of the cache holds, once each, exactly the
    tuples of the calls that wait on its key and are still pending: no tuple
    of a settled promise stays behind, and none stands in two slots. *)
Theorem cache_holds_the_waiting_calls {js : JsBuiltins}
    {repo : HttpRepository} (w : World) (k : string)
    (slot : list (Fn * Fn)) :
  reachable w ->
  requestCache (heap w) !! k = Some slot ->
  NoDup slot /\
  (forall tuple, tuple ∈ slot -> exists p, tuple = waiter p) /\
  forall p,
    waiter p ∈ slot <->
    exists t r, tasks w !! t = Some (Joined r p) /\ key_of r = k /\
                promises (heap w) !! p = Some Pending.
Proof.
  intros Hreach Hk.
  pose proof (reachable_consistent w Hreach) as Hw.
  pose proof (reachable_hygienic w Hreach) as Hh.
  split; [by apply (slots_nodup w Hh k)|].
  split; [intros tuple; by apply (slots_hold_waiters w Hw k slot tuple Hk)|].
  intros p. split.
  - intros Hin.
    destruct (cached_is_joined w Hh _ _ _ Hk Hin) as (t & r & Ht & Hkey).
    exists t, r. split; [done|]. split; [done|].
    by eapply cached_is_pending.
  - intros (t & r & Ht & <- & Hp).
    destruct (joined_in_slot w Hw _ _ _ Ht Hp) as (slot' & Hk' & Hin).
    by simplify_eq.
Qed.

Lemma cache_holds_the_waiting_calls_witness :
  (reachable (js := sample_builtins) (repo := base "/api") two_in_flight /\
   requestCache (heap two_in_flight) !! "GET /users" = Some [waiter 0]) /\
  NoDup [waiter 0] /\
  (forall tuple, tuple ∈ [waiter 0] -> exists p, tuple = waiter p) /\
  forall p,
    waiter p ∈ [waiter 0] <->
    exists t r, tasks two_in_flight !! t = Some (Joined r p) /\
                key_of r = "GET /users" /\
                promises (heap two_in_flight) !! p = Some Pending.
Proof.
  assert (Hk : requestCache (heap two_in_flight) !! "GET /users"
               = Some [waiter 0]) by reflexivity.
  split; [split; [apply two_in_flight_reachable | exact Hk]|].
  exact (cache_holds_the_waiting_calls (js := sample_builtins)
           (repo := base "/api") two_in_flight "GET /users" [waiter 0]
           two_in_flight_reachable Hk).
Defined.
